(** * shelter/data.py: loading and feature derivation for shelter outcomes

    A shallow embedding of [src/shelter/data.py] and the properties of its
    column rules.

    Modelling conventions.
    - A Python [str] is a [string] whose characters are the code points
      U+0000..U+00FF; [str.lower], [str.split] and the regular expressions
      are written out for that range.
    - A [pandas.Series] is the list of its values in row order (the index is
      positional), tagged with the kind of value it holds.
    - A [pandas.DataFrame] is the ordered list of its named columns; frames
      live in a store and are passed by reference, as Python objects are.
      A label is read by its first column; what depends on a label being
      read as one series is stated for frames with distinct labels.
    - A float is a binary64 value, [spec_float] with precision 53 and
      maximal exponent 1024; the missing value of pandas is NaN.
    - Python exceptions are the errors of a state-and-error monad. *)

From Stdlib Require Import ZArith NArith Ascii SpecFloat.
From stdpp Require Import gmap strings list.

Local Open Scope N_scope.

(** ** Characters and strings *)

Definition code (c : ascii) : N := N_of_ascii c.

Definition in_range (lo hi : N) (c : ascii) : bool :=
  (lo <=? code c) && (code c <=? hi).

(** The character classes [[A-Z]], [[a-z]] and [[a-z0-9]] of the regular
    expressions, and the decimal digits. *)
Definition is_upper_az (c : ascii) : bool := in_range 65 90 c.
Definition is_lower_az (c : ascii) : bool := in_range 97 122 c.
Definition is_digit (c : ascii) : bool := in_range 48 57 c.
Definition is_lower_az_digit (c : ascii) : bool := is_lower_az c || is_digit c.

(** [str.lower] on one character: the letters A-Z, and the Latin-1 capitals
    U+00C0..U+00DE without the multiplication sign U+00D7. *)
Definition char_lower (c : ascii) : ascii :=
  if is_upper_az c || (in_range 192 222 c && negb (code c =? 215))
  then ascii_of_N (code c + 32)
  else c.

Fixpoint lower (s : string) : string :=
  match s with
  | EmptyString => EmptyString
  | String c s' => String (char_lower c) (lower s')
  end.

(** [str.isspace] on one character. *)
Definition is_space (c : ascii) : bool :=
  in_range 9 13 c || in_range 28 32 c || (code c =? 133) || (code c =? 160).

(** [s.startswith(p)]. *)
Fixpoint startswith (s p : string) {struct p} : bool :=
  match p, s with
  | EmptyString, _ => true
  | String _ _, EmptyString => false
  | String a p', String b s' => if decide (a = b) then startswith s' p' else false
  end.

(** [s.endswith(suffix)]. *)
Fixpoint endswith (s suffix : string) : bool :=
  bool_decide (s = suffix) ||
  match s with
  | EmptyString => false
  | String _ s' => endswith s' suffix
  end.

(** [pat in s], which is what [Series.str.contains(pat)] computes for a
    pattern without regular-expression metacharacters. *)
Fixpoint contains (s pat : string) : bool :=
  startswith s pat ||
  match s with
  | EmptyString => false
  | String _ s' => contains s' pat
  end.

(** [s.split()]: the maximal runs of characters that are not whitespace. *)
Fixpoint split_go (tok : string) (s : string) : list string :=
  match s with
  | EmptyString => if decide (tok = "") then [] else [tok]
  | String c s' =>
      if is_space c
      then (if decide (tok = "") then split_go "" s' else tok :: split_go "" s')
      else split_go (tok +:+ String c "") s'
  end.

Definition split (s : string) : list string := split_go "" s.

(** ** Exceptions, series, frames and the store *)

Inductive exn : Type :=
  | KeyError (key : string)
  | AttributeError
  | IndexError
  | ValueError (text : string).

Definition float64 : Type := spec_float.

Inductive Series : Type :=
  | StrCol (values : list string)
  | BoolCol (values : list bool)
  | FloatCol (values : list float64)
  | TimeCol (values : list Z).

Definition series_len (s : Series) : nat :=
  match s with
  | StrCol l => length l
  | BoolCol l => length l
  | FloatCol l => length l
  | TimeCol l => length l
  end.

Definition DataFrame : Type := list (string * Series).

Abbreviation loc := nat (only parsing).

(** The interpreter state: the frames allocated so far, and the records
    sent to the root logger (each record carries the values it reports). *)
Record state : Type := State {
  frames : gmap nat DataFrame;
  log : list Series
}.

Definition M (A : Type) : Type := state → (exn + A) * state.

Definition ret {A} (a : A) : M A := λ st, (inr a, st).
Definition raise {A} (e : exn) : M A := λ st, (inl e, st).
Definition bind {A B} (m : M A) (k : A → M B) : M B :=
  λ st, match m st with
        | (inl e, st') => (inl e, st')
        | (inr a, st') => k a st'
        end.

Notation "x <~ m ;; k" := (bind m (λ x, k))
  (at level 100, m at next level, right associativity, only parsing).
Notation "m ;;; k" := (bind m (λ _, k))
  (at level 100, right associativity, only parsing).

(** The [.str] accessor: only a series of strings has one. *)
Definition str (s : Series) : M (list string) :=
  match s with
  | StrCol l => ret l
  | _ => raise AttributeError
  end.

(** [s.loc[mask] = v] and [s[mask] = v], for a mask on the index of [s]. *)
Definition mask_assign {A} (mask : list bool) (v : A) (s : list A) : list A :=
  zip_with (λ (b : bool) x, if b then v else x) mask s.

(** [s.isin(values)]. *)
Definition isin (values : list string) (s : list string) : list bool :=
  map (λ x, bool_decide (x ∈ values)) s.

(** ** The column rules *)

Definition get_sex (sex_upon_outcome : Series) : M Series :=
  let sex := replicate (series_len sex_upon_outcome) "unknown" in
  v <~ str sex_upon_outcome ;;
  let sex := mask_assign (map (λ x, endswith x "Female") v) "female" sex in
  v <~ str sex_upon_outcome ;;
  let sex := mask_assign (map (λ x, endswith x "Male") v) "male" sex in
  ret (StrCol sex).

(** [logging.error(msg, values)]: one record on the root logger. *)
Definition logging_error (values : Series) : M unit :=
  λ st, (inr (), State (frames st) (log st ++ [values])).

(** [s[mask]]: the rows of [s] selected by a boolean mask. *)
Fixpoint mask_select {A} (mask : list bool) (s : list A) : list A :=
  match mask, s with
  | b :: mask', x :: s' => if b then x :: mask_select mask' s' else mask_select mask' s'
  | _, _ => []
  end.

Definition series_select (mask : list bool) (s : Series) : Series :=
  match s with
  | StrCol l => StrCol (mask_select mask l)
  | BoolCol l => BoolCol (mask_select mask l)
  | FloatCol l => FloatCol (mask_select mask l)
  | TimeCol l => TimeCol (mask_select mask l)
  end.

(** [s.str.lower()]. *)
Definition str_lower (s : Series) : M (list string) :=
  v <~ str s ;; ret (map lower v).

Definition check_is_dog (animal_type : Series) : M Series :=
  lowered <~ str_lower animal_type ;;
  let is_cat_dog := isin ["dog"; "cat"] lowered in
  (if negb (forallb id is_cat_dog)
   then logging_error (series_select (map negb is_cat_dog) animal_type)
   else ret ()) ;;;
  lowered <~ str_lower animal_type ;;
  ret (BoolCol (map (λ x, bool_decide (x = "dog")) lowered)).

Definition check_has_name (name : Series) : M Series :=
  lowered <~ str_lower name ;;
  ret (BoolCol (map (λ x, bool_decide (x ≠ "unknown")) lowered)).

Definition get_neutered (sex_upon_outcome : Series) : M Series :=
  neutered <~ str_lower sex_upon_outcome ;;
  let neutered :=
    mask_assign (map (λ x, contains x "neutered") neutered) "fixed" neutered in
  let neutered :=
    mask_assign (map (λ x, contains x "spayed") neutered) "fixed" neutered in
  let neutered :=
    mask_assign (map (λ x, contains x "intact") neutered) "intact" neutered in
  let neutered :=
    mask_assign (map negb (isin ["fixed"; "intact"] neutered)) "unknown" neutered in
  ret (StrCol neutered).

Definition valid_hair_types : list string :=
  ["shorthair"; "medium hair"; "longhair"].

(** One turn of the loop [for hair in valid_hair_types]. *)
Definition hair_step (hair_type : list string) (hair : string) : list string :=
  let is_hair_type := map (λ x, contains x hair) hair_type in
  mask_assign is_hair_type hair hair_type.

Definition get_hair_type (breed : Series) : M Series :=
  hair_type <~ str_lower breed ;;
  let hair_type := foldl hair_step hair_type valid_hair_types in
  let hair_type :=
    mask_assign (map negb (isin valid_hair_types hair_type)) "unknown" hair_type in
  ret (StrCol hair_type).

(** ** Floats *)

(** The binary64 value nearest to [m * 2^e] (ties to even). *)
Definition B64 (m e : Z) : float64 := binary_normalize 53 1024 m e false.

Definition float_of_int (k : Z) : float64 := B64 k 0.
Definition fmul : float64 → float64 → float64 := SFmul 53 1024.
Definition nan : float64 := S754_nan.

(** [np.isnan], the test for a missing value. *)
Definition isnan (f : float64) : bool :=
  match f with S754_nan => true | _ => false end.

(** The binary64 value nearest to [d * 10^k], for [d > 0].  With a negative
    [k] the quotient is computed to 63 bits or more and the remainder is kept
    as a sticky bit, which rounds as the exact quotient does. *)
Definition float_of_decimal (d k : Z) : float64 :=
  if (0 <=? k)%Z then B64 (d * 10 ^ k) 0
  else
    let den := (10 ^ (- k))%Z in
    let s := Z.max 0 (Z.log2 den - Z.log2 d + 64) in
    let q := (d * 2 ^ s / den)%Z in
    let r := ((d * 2 ^ s) mod den)%Z in
    B64 (2 * q + (if (r =? 0)%Z then 0 else 1)) (- (s + 1)).

Definition digit_value (c : ascii) : Z := Z.of_N (code c - 48).

(** The rest of a [digitpart] after a digit: digits, each optionally
    preceded by one underscore.  Returns the accumulated value, the number
    of digits read and the unread text. *)
Fixpoint digitpart_go (acc : Z) (n : Z) (s : string) : Z * Z * string :=
  match s with
  | String c s' =>
      if is_digit c then digitpart_go (10 * acc + digit_value c) (n + 1) s'
      else if decide (c = "_"%char) then
        match s' with
        | String c' s'' =>
            if is_digit c'
            then digitpart_go (10 * acc + digit_value c') (n + 1) s''
            else (acc, n, s)
        | EmptyString => (acc, n, s)
        end
      else (acc, n, s)
  | EmptyString => (acc, n, s)
  end.

Definition digitpart (acc : Z) (s : string) : option (Z * Z * string) :=
  match s with
  | String c s' =>
      if is_digit c then Some (digitpart_go (10 * acc + digit_value c) 1 s')
      else None
  | EmptyString => None
  end.

(** [[sign]]: the sign read, and the unread text. *)
Definition read_sign (s : string) : bool * string :=
  match s with
  | String "-" s' => (true, s')
  | String "+" s' => (false, s')
  | _ => (false, s)
  end.

(** [exponent ::= ("e" | "E") [sign] digitpart], on lowered text; an absent
    exponent is 0. *)
Definition read_exponent (s : string) : option Z :=
  match s with
  | EmptyString => Some 0%Z
  | String "e" s' =>
      let '(neg, s'') := read_sign s' in
      match digitpart 0 s'' with
      | Some (e, _, EmptyString) => Some (if neg then - e else e)%Z
      | _ => None
      end
  | _ => None
  end.

(** [floatnumber], on lowered text: the digits as an integer [d] and the
    decimal exponent [k], for the value [d * 10^k]. *)
Definition read_floatnumber (s : string) : option (Z * Z) :=
  match s with
  | String "." s' =>
      match digitpart 0 s' with
      | Some (d, n, rest) => e ← read_exponent rest; Some (d, e - n)%Z
      | None => None
      end
  | _ =>
      match digitpart 0 s with
      | Some (d, _, String "." rest) =>
          match digitpart d rest with
          | Some (d', n, rest') => e ← read_exponent rest'; Some (d', e - n)%Z
          | None => e ← read_exponent rest; Some (d, e)
          end
      | Some (d, _, rest) => e ← read_exponent rest; Some (d, e)
      | None => None
      end
  end.

(** [s.strip()]. *)
Fixpoint lstrip (s : string) : string :=
  match s with
  | String c s' => if is_space c then lstrip s' else s
  | EmptyString => s
  end.

Definition strip (s : string) : string :=
  String.rev (lstrip (String.rev (lstrip s))).

(** The builtin [float(s)] on a string; [None] is its [ValueError]. *)
Definition py_float (s : string) : option float64 :=
  let '(neg, t) := read_sign (lower (strip s)) in
  if bool_decide (t = "inf" ∨ t = "infinity") then Some (S754_infinity neg)
  else if bool_decide (t = "nan") then Some nan
  else
    '(d, k) ← read_floatnumber t;
    Some (if (d =? 0)%Z then S754_zero neg
          else if neg then SFopp (float_of_decimal d k)
          else float_of_decimal d k).

(** ** Age in days *)

(** [x[i]] on a list. *)
Definition list_getitem {A} (x : list A) (i : nat) : M A :=
  match x !! i with
  | Some a => ret a
  | None => raise IndexError
  end.

(** [s.apply(f)]: [f] on every row in order; the first exception ends it. *)
Fixpoint apply {A B} (f : A → M B) (s : list A) : M (list B) :=
  match s with
  | [] => ret []
  | x :: s' => y <~ f x ;; ys <~ apply f s' ;; ret (y :: ys)
  end.

(** [lambda x: x[0] if x[0] != 'Unknown' else np.nan] *)
Definition time_of (x : list string) : M (string + float64) :=
  x0 <~ list_getitem x 0 ;;
  if bool_decide (x0 ≠ "Unknown")
  then (v <~ list_getitem x 0 ;; ret (inl v))
  else ret (inr nan).

(** [lambda x: x[1] if x[0] != 'Unknown' else None] *)
Definition period_of (x : list string) : M (option string) :=
  x0 <~ list_getitem x 0 ;;
  if bool_decide (x0 ≠ "Unknown")
  then (v <~ list_getitem x 1 ;; ret (Some v))
  else ret None.

(** One row of [time.astype(float)]: a string goes through [float]. *)
Definition astype_float (v : string + float64) : M float64 :=
  match v with
  | inl s =>
      match py_float s with
      | Some f => ret f
      | None => raise (ValueError s)
      end
  | inr f => ret f
  end.

Definition period_mapping : gmap string Z :=
  list_to_map
    [("year", 365%Z); ("years", 365%Z); ("weeks", 7%Z); ("week", 7%Z);
     ("month", 30%Z); ("months", 30%Z); ("days", 1%Z); ("day", 1%Z)].

(** One row of [period.map(mapping)]: a key that is not in the mapping,
    [None] included, gives NaN. *)
Definition map_dict (mapping : gmap string Z) (v : option string) : float64 :=
  match v ≫= (mapping !!.) with
  | Some k => float_of_int k
  | None => nan
  end.

Definition compute_days_upon_outcome (age_upon_outcome : Series) : M Series :=
  v <~ str age_upon_outcome ;;
  let split_age := map split v in
  time <~ apply time_of split_age ;;
  period <~ apply period_of split_age ;;
  time_float <~ apply astype_float time ;;
  let days_upon_outcome :=
    zip_with fmul time_float (map (map_dict period_mapping) period) in
  ret (FloatCol days_upon_outcome).

(** ** Frames in the store *)

(** [df[name]] on the frame itself. *)
Fixpoint frame_get (name : string) (df : DataFrame) : option Series :=
  match df with
  | [] => None
  | (n, s) :: df' => if decide (n = name) then Some s else frame_get name df'
  end.

(** [df[name] = s] on the frame itself: an existing column is replaced where
    it stands, a new one is added after the last. *)
Fixpoint frame_set (name : string) (s : Series) (df : DataFrame) : DataFrame :=
  match df with
  | [] => [(name, s)]
  | (n, s') :: df' =>
      if decide (n = name) then (n, s) :: df' else (n, s') :: frame_set name s df'
  end.

(** Reading the frame a reference points to.  Every reference a program
    holds is in the store; the [KeyError] of the other case is never met. *)
Definition deref (df : loc) : M DataFrame :=
  λ st, match frames st !! df with
        | Some t => (inr t, st)
        | None => (inl (KeyError ""), st)
        end.

(** [df.copy()]: a new frame with the same columns. *)
Definition copy (df : loc) : M loc :=
  t <~ deref df ;;
  λ st, let l := fresh (dom (frames st)) in
        (inr l, State (<[l := t]> (frames st)) (log st)).

(** [df[name]]. *)
Definition getitem (df : loc) (name : string) : M Series :=
  t <~ deref df ;;
  match frame_get name t with
  | Some s => ret s
  | None => raise (KeyError name)
  end.

(** [df[name] = s]: the frame is changed in place. *)
Definition setitem (df : loc) (name : string) (s : Series) : M unit :=
  t <~ deref df ;;
  λ st, (inr (), State (<[df := frame_set name s t]> (frames st)) (log st)).

Definition add_features (df : loc) : M loc :=
  df <~ copy df ;;
  (c <~ getitem df "animal_type" ;; v <~ check_is_dog c ;;
   setitem df "is_dog" v) ;;;
  (c <~ getitem df "name" ;; v <~ check_has_name c ;;
   setitem df "has_name" v) ;;;
  (c <~ getitem df "sex_upon_outcome" ;; v <~ get_sex c ;;
   setitem df "sex" v) ;;;
  (c <~ getitem df "sex_upon_outcome" ;; v <~ get_neutered c ;;
   setitem df "neutered" v) ;;;
  (c <~ getitem df "breed" ;; v <~ get_hair_type c ;;
   setitem df "hair_type" v) ;;;
  (c <~ getitem df "age_upon_outcome" ;; v <~ compute_days_upon_outcome c ;;
   setitem df "days_upon_outcome" v) ;;;
  ret df.

(** ** Column names *)

(** [s.replace(old, new)] for a non-empty [old]; [skip] counts the
    characters of a replaced occurrence that are still to be passed. *)
Fixpoint replace_go (skip : nat) (s old new : string) : string :=
  match s with
  | EmptyString => EmptyString
  | String c s' =>
      match skip with
      | S k => replace_go k s' old new
      | O =>
          if startswith s old
          then new +:+ replace_go (String.length old - 1) s' old new
          else String c (replace_go 0 s' old new)
      end
  end.

Definition replace (s old new : string) : string := replace_go 0 s old new.

(** [re.sub('(.)([A-Z][a-z]+)', r'\1_\2', s)].  [in_run] says that the
    previous character ended inside the [[a-z]+] of a match, which a
    lowercase letter then continues. *)
Fixpoint sub_upper_lower (in_run : bool) (s : string) : string :=
  match s with
  | EmptyString => EmptyString
  | String c s' =>
      if in_run && is_lower_az c then String c (sub_upper_lower true s')
      else
        match s' with
        | String u (String l s'') =>
            if negb (bool_decide (c = "010"%char)) && is_upper_az u && is_lower_az l
            then String c (String "_" (String u (String l (sub_upper_lower true s''))))
            else String c (sub_upper_lower false s')
        | _ => String c (sub_upper_lower false s')
        end
  end.

(** [re.sub('([a-z0-9])([A-Z])', r'\1_\2', s)]. *)
Fixpoint sub_lower_upper (s : string) : string :=
  match s with
  | EmptyString => EmptyString
  | String c s' =>
      match s' with
      | String u s'' =>
          if is_lower_az_digit c && is_upper_az u
          then String c (String "_" (String u (sub_lower_upper s'')))
          else String c (sub_lower_upper s')
      | EmptyString => String c EmptyString
      end
  end.

Definition convert_camel_case (name : string) : string :=
  let s1 := sub_upper_lower false name in
  lower (sub_lower_upper s1).

(** The two renamings of [load_data], applied to one column name. *)
Definition rename_column (name : string) : string :=
  convert_camel_case (replace name "upon" "Upon").

(** * Row-wise readings of the rules

    What each rule leaves in one row, and the rules of the specification as
    relations between a stored value and its label. *)

(** [s] ends with [suffix]; [s] has [pat] somewhere inside. *)
Definition has_suffix (s suffix : string) : Prop := ∃ p, s = p +:+ suffix.
Definition has_infix (s pat : string) : Prop := ∃ p q, s = p +:+ pat +:+ q.

(** What [get_sex] leaves in one row. *)
Definition sex_of (s : string) : string :=
  if endswith s "Male" then "male"
  else if endswith s "Female" then "female"
  else "unknown".

(** The rule of the specification for one row: the label [v] given to the
    stored value [s]. *)
Definition sex_rule (s v : string) : Prop :=
  (v = "female" ∨ v = "male" ∨ v = "unknown") ∧
  (v = "female" ↔ has_suffix s "Female") ∧
  (v = "male" ↔ has_suffix s "Male" ∧ ¬ has_suffix s "Female") ∧
  (v = "unknown" ↔ ¬ has_suffix s "Female" ∧ ¬ has_suffix s "Male") ∧
  ¬ (has_suffix s "Female" ∧ v = "male").


(** What one assignment [s.loc[s.str.contains(pat)] = v] leaves in a row
    that held [x]. *)
Definition relabel (pat v x : string) : string :=
  if contains x pat then v else x.

(** What [get_neutered] leaves in one row. *)
Definition neutered_of (s : string) : string :=
  let x := lower s in
  let x := relabel "neutered" "fixed" x in
  let x := relabel "spayed" "fixed" x in
  let x := relabel "intact" "intact" x in
  if bool_decide (x ∈ ["fixed"; "intact"]) then x else "unknown".

(** The neutered rule as the specification words it. *)
Definition neutered_rule_as_claimed (s v : string) : Prop :=
  let x := lower s in
  (¬ has_infix x "neutered" → ¬ has_infix x "spayed" → ¬ has_infix x "intact" →
   v = "unknown") ∧
  (v = "fixed" ∨ v = "intact" ∨ v = "unknown") ∧
  (v = "fixed" ↔ has_infix x "neutered" ∨ has_infix x "spayed") ∧
  (v = "intact" ↔
     has_infix x "intact" ∧ ¬ (has_infix x "neutered" ∨ has_infix x "spayed")).

(** The neutered rule of the code: a value that is itself [fixed] once
    lowered keeps that label. *)
Definition neutered_rule (s v : string) : Prop :=
  let x := lower s in
  (¬ has_infix x "neutered" → ¬ has_infix x "spayed" → ¬ has_infix x "intact" →
   x ≠ "fixed" → v = "unknown") ∧
  (v = "fixed" ∨ v = "intact" ∨ v = "unknown") ∧
  (v = "fixed" ↔ has_infix x "neutered" ∨ has_infix x "spayed" ∨ x = "fixed") ∧
  (v = "intact" ↔
     has_infix x "intact" ∧ ¬ (has_infix x "neutered" ∨ has_infix x "spayed")).

(** What [get_hair_type] leaves in one row. *)
Definition hair_of (s : string) : string :=
  let x := foldl (λ x hair, relabel hair hair x) (lower s) valid_hair_types in
  if bool_decide (x ∈ valid_hair_types) then x else "unknown".

(** [v] is the earliest of [hairs] that [x] contains. *)
Definition earliest_contained (x : string) (hairs : list string) (v : string) : Prop :=
  ∃ i, hairs !! i = Some v ∧ has_infix x v ∧
       ∀ j h, (j < i)%nat → hairs !! j = Some h → ¬ has_infix x h.

(** The hair rule of the specification. *)
Definition hair_rule (s v : string) : Prop :=
  let x := lower s in
  (earliest_contained x valid_hair_types v ∨
   (v = "unknown" ∧ ∀ h, h ∈ valid_hair_types → ¬ has_infix x h)) ∧
  (has_infix x "shorthair" → has_infix x "longhair" → v = "shorthair").

(** What [check_is_dog] leaves in one row, and what it sends to the log. *)
Definition is_dog_of (s : string) : bool := bool_decide (lower s = "dog").

Definition anomalies (v : list string) : list Series :=
  let is_cat_dog := isin ["dog"; "cat"] (map lower v) in
  if forallb id is_cat_dog then []
  else [StrCol (mask_select (map negb is_cat_dog) v)].

(** What [check_has_name] leaves in one row. *)
Definition has_name_of (s : string) : bool := bool_decide (lower s ≠ "unknown").

(** A name in snake case: small letters, digits and underscores only. *)
Definition is_snake_char (c : ascii) : bool :=
  is_lower_az c || is_digit c || bool_decide (c = "_"%char).

Fixpoint is_snake (s : string) : bool :=
  match s with
  | EmptyString => true
  | String c s' => is_snake_char c && is_snake s'
  end.

(** The result of a computation that does not look at the state. *)
Definition pure_result {A} (m : M A) : exn + A := fst (m (State ∅ [])).

(** The outcome of [apply] with a function that leaves the state alone. *)
Fixpoint apply_pure {A B} (g : A → exn + B) (s : list A) : exn + list B :=
  match s with
  | [] => inr []
  | x :: s' =>
      match g x with
      | inl e => inl e
      | inr y =>
          match apply_pure g s' with
          | inl e => inl e
          | inr ys => inr (y :: ys)
          end
      end
  end.

(** What [compute_days_upon_outcome] leaves in one row; [None] when that
    row makes it raise. *)
Definition days_of (s : string) : option float64 :=
  match split s with
  | [] => None
  | x0 :: rest =>
      if bool_decide (x0 = "Unknown") then Some nan
      else
        match rest with
        | [] => None
        | unit :: _ =>
            f ← py_float x0;
            Some (fmul f (map_dict period_mapping (Some unit)))
        end
  end.

(** A token: not empty, without whitespace. *)
Fixpoint no_space (s : string) : bool :=
  match s with
  | EmptyString => true
  | String c s' => negb (is_space c) && no_space s'
  end.

Definition is_token (s : string) : Prop := s ≠ "" ∧ no_space s = true.

(** Binary64 values written out: sign, 53-bit significand and exponent of
    1.0, 2.0, 3.0, 7.0, 21.0, 30.0, 365.0 and 730.0. *)
Definition f64_1 : float64 := S754_finite false 4503599627370496 (-52).
Definition f64_2 : float64 := S754_finite false 4503599627370496 (-51).
Definition f64_3 : float64 := S754_finite false 6755399441055744 (-51).
Definition f64_7 : float64 := S754_finite false 7881299347898368 (-50).
Definition f64_21 : float64 := S754_finite false 5910974510923776 (-48).
Definition f64_30 : float64 := S754_finite false 8444249301319680 (-48).
Definition f64_365 : float64 := S754_finite false 6421147906211840 (-44).
Definition f64_730 : float64 := S754_finite false 6421147906211840 (-43).

(** The unit table of the specification, each unit with its days as a
    float. *)
Definition unit_days : list (string * float64) :=
  [("year", f64_365); ("years", f64_365); ("month", f64_30); ("months", f64_30);
   ("week", f64_7); ("weeks", f64_7); ("day", f64_1); ("days", f64_1)].

(** The age rule of the specification, between an age [s] and its days [y]:
    a magnitude [m] that [float] reads as [f] and a unit [u] of the table
    give the product of [f] and the days of [u]; a unit that is not in the
    table, and the magnitude [Unknown], give a missing value. *)
Definition age_rule (s : string) (y : float64) : Prop :=
  (∀ m u rest f d, split s = m :: u :: rest → m ≠ "Unknown" →
                   py_float m = Some f → (u, d) ∈ unit_days → y = fmul f d) ∧
  (∀ m u rest, split s = m :: u :: rest → m ≠ "Unknown" →
               u ∉ map fst unit_days → isnan y = true) ∧
  (∀ rest, split s = "Unknown" :: rest → isnan y = true).

(** The unit table of the specification. *)
Definition unit_table : list (string * Z) :=
  [("year", 365%Z); ("years", 365%Z); ("month", 30%Z); ("months", 30%Z);
   ("week", 7%Z); ("weeks", 7%Z); ("day", 1%Z); ("days", 1%Z)].

(** The ages on which [compute_days_upon_outcome] does not raise: the
    magnitude [Unknown], or a magnitude that [float] reads and a unit token
    after it. *)
Definition age_ok (s : string) : Prop :=
  (∃ rest, split s = "Unknown" :: rest) ∨
  (∃ m u rest f, split s = m :: u :: rest ∧ m ≠ "Unknown" ∧ py_float m = Some f).

(** A unit that is not in the table leaves a missing value. *)
Definition unit_rule (s : string) (y : float64) : Prop :=
  ∀ m u rest, split s = m :: u :: rest → m ≠ "Unknown" →
              period_mapping !! u = None → isnan y = true.

(** The never-raises reading of the specification, for one series. *)
Definition days_never_raise (v : list string) : Prop :=
  ∀ st, ∃ out, compute_days_upon_outcome (StrCol v) st = (inr (FloatCol out), st) ∧
               length out = length v.

(** ** Frames *)

(** One stanza of [add_features]: [df[dst] = rule(df[src])]. *)
Definition derive (df : loc) (src : string) (rule : Series → M Series)
    (dst : string) : M unit :=
  c <~ getitem df src ;; v <~ rule c ;; setitem df dst v.

Definition derived_names : list string :=
  ["is_dog"; "has_name"; "sex"; "neutered"; "hair_type"; "days_upon_outcome"].

(** The column [name] of a frame, when it is a column of strings. *)
Definition str_column (name : string) (t : DataFrame) : option (list string) :=
  match frame_get name t with
  | Some (StrCol v) => Some v
  | _ => None
  end.

(** The six derived columns of a frame, in the order [add_features] sets
    them; [None] when a consumed column is missing or is not a column of
    strings, or when an age makes [compute_days_upon_outcome] raise. *)
Definition features (t : DataFrame) : option (list (string * Series)) :=
  a ← str_column "animal_type" t;
  n ← str_column "name" t;
  x ← str_column "sex_upon_outcome" t;
  b ← str_column "breed" t;
  g ← str_column "age_upon_outcome" t;
  days ← mapM days_of g;
  Some [("is_dog", BoolCol (map is_dog_of a));
        ("has_name", BoolCol (map has_name_of n));
        ("sex", StrCol (map sex_of x));
        ("neutered", StrCol (map neutered_of x));
        ("hair_type", StrCol (map hair_of b));
        ("days_upon_outcome", FloatCol days)].

(** Setting columns one after the other. *)
Definition frame_set_all (cols : list (string * Series)) (t : DataFrame) : DataFrame :=
  foldl (λ t c, frame_set c.1 c.2 t) t cols.

(** What [add_features] sends to the log for the frame [t]. *)
Definition features_log (t : DataFrame) : list Series :=
  match str_column "animal_type" t with
  | Some a => anomalies a
  | None => []
  end.

(** What a rule does on every series: on a series of strings [v] it returns
    [R v] and logs [L v], or raises when [R v] is [None]; on any other series
    it raises.  It never touches the frames. *)
Definition rule_ok (rule : Series → M Series)
    (R : list string → option Series) (L : list string → list Series) : Prop :=
  ∀ c st,
    match c with
    | StrCol v =>
        match R v with
        | Some r => rule c st = (inr r, State (frames st) (log st ++ L v))
        | None => ∃ e st', rule c st = (inl e, st') ∧ frames st' = frames st
        end
    | _ => ∃ e st', rule c st = (inl e, st') ∧ frames st' = frames st
    end.

(** Every column has [n] rows. *)
Definition has_rows (n : nat) (t : DataFrame) : Prop :=
  Forall (λ c, series_len c.2 = n) t.

(** The reading of the specification: every original column is in the
    result as it was, and the names of the result are the original names
    followed by the six derived names. *)
Definition keeps_all_columns (t t' : DataFrame) : Prop :=
  (∀ c s, frame_get c t = Some s → frame_get c t' = Some s) ∧
  map fst t' = map fst t ++ derived_names.

(** A frame that already has a column called sex. *)
Definition frame_with_sex : DataFrame :=
  [("animal_type", StrCol ["Dog"]); ("name", StrCol ["Rex"]);
   ("sex_upon_outcome", StrCol ["Neutered Male"]); ("breed", StrCol ["Beagle Mix"]);
   ("age_upon_outcome", StrCol ["2 years"]); ("sex", StrCol ["M"])].

(** What [add_features] returns for it. *)
Definition frame_with_sex_result : DataFrame :=
  [("animal_type", StrCol ["Dog"]); ("name", StrCol ["Rex"]);
   ("sex_upon_outcome", StrCol ["Neutered Male"]); ("breed", StrCol ["Beagle Mix"]);
   ("age_upon_outcome", StrCol ["2 years"]); ("sex", StrCol ["male"]);
   ("is_dog", BoolCol [true]); ("has_name", BoolCol [true]);
   ("neutered", StrCol ["fixed"]); ("hair_type", StrCol ["unknown"]);
   ("days_upon_outcome", FloatCol [float_of_int 730])].

(** A frame as [load_data] returns it. *)
Definition frame_loaded : DataFrame :=
  [("animal_id", StrCol ["A1"; "A2"; "A3"]);
   ("name", StrCol ["Rex"; "Unknown"; "Tweety"]);
   ("date_time", TimeCol [1392222000%Z; 1381676640%Z; 1422727680%Z]);
   ("animal_type", StrCol ["Dog"; "Cat"; "Bird"]);
   ("sex_upon_outcome", StrCol ["Neutered Male"; "Spayed Female"; "Unknown"]);
   ("age_upon_outcome", StrCol ["2 years"; "3 weeks"; "Unknown"]);
   ("breed", StrCol ["Beagle Mix"; "Domestic Shorthair Mix"; "Canary"])].

(** Row order: each derived column of [t'] holds, row by row, what its rule
    leaves for the same row of the column of [t] it is derived from. *)
Definition derived_rowwise (t t' : DataFrame) : Prop :=
  ∃ a nm x b g days,
    str_column "animal_type" t = Some a ∧
    str_column "name" t = Some nm ∧
    str_column "sex_upon_outcome" t = Some x ∧
    str_column "breed" t = Some b ∧
    str_column "age_upon_outcome" t = Some g ∧
    Forall2 (λ s y, days_of s = Some y) g days ∧
    frame_get "is_dog" t' = Some (BoolCol (map is_dog_of a)) ∧
    frame_get "has_name" t' = Some (BoolCol (map has_name_of nm)) ∧
    frame_get "sex" t' = Some (StrCol (map sex_of x)) ∧
    frame_get "neutered" t' = Some (StrCol (map neutered_of x)) ∧
    frame_get "hair_type" t' = Some (StrCol (map hair_of b)) ∧
    frame_get "days_upon_outcome" t' = Some (FloatCol days).

(** A store with one frame. *)
Definition store_of (t : DataFrame) : state := State {[ 0%nat := t ]} [].

(** * Further readings of the code *)

(** An animal type that [check_is_dog] does not report. *)
Definition cat_or_dog (s : string) : bool :=
  bool_decide (lower s = "dog") || bool_decide (lower s = "cat").

(** A series without the [.str] accessor. *)
Definition not_strings (c : Series) : Prop :=
  match c with
  | StrCol _ => False
  | _ => True
  end.

(** An age that makes an index go out of range: no token at all, or a lone
    token that is not [Unknown]. *)
Definition short_age (s : string) : Prop :=
  split s = [] ∨ ∃ m, split s = [m] ∧ m ≠ "Unknown".

(** An age whose magnitude [m] is not [Unknown] and not read by [float]. *)
Definition bad_magnitude (s m : string) : Prop :=
  ∃ rest, split s = m :: rest ∧ m ≠ "Unknown" ∧ py_float m = None.

(** A name without its underscores. *)
Fixpoint erase_underscores (s : string) : string :=
  match s with
  | EmptyString => EmptyString
  | String c s' =>
      if decide (c = "_"%char) then erase_underscores s'
      else String c (erase_underscores s')
  end.

(** A string without its first [k] characters. *)
Fixpoint string_drop (k : nat) (s : string) : string :=
  match k, s with
  | S k', String _ s' => string_drop k' s'
  | _, _ => s
  end.

(** The columns [add_features] reads, in the order it first reads them. *)
Definition consumed_names : list string :=
  ["animal_type"; "name"; "sex_upon_outcome"; "breed"; "age_upon_outcome"].

(** A frame [add_features] can derive from: the five consumed columns are
    columns of strings, and every age has the magnitude [Unknown] or a
    magnitude that [float] reads and a unit token. *)
Definition consumable (t : DataFrame) : Prop :=
  ∃ a n x b g,
    str_column "animal_type" t = Some a ∧
    str_column "name" t = Some n ∧
    str_column "sex_upon_outcome" t = Some x ∧
    str_column "breed" t = Some b ∧
    str_column "age_upon_outcome" t = Some g ∧
    Forall age_ok g.



(** [frame_loaded] with one more column in front. *)
Definition frame_loaded_color : DataFrame :=
  ("color", StrCol ["Brown"; "Black"; "Yellow"]) :: frame_loaded.

(** A series of strings with its values lowered; any other series as it is. *)
Definition series_lower (c : Series) : Series :=
  match c with
  | StrCol l => StrCol (map lower l)
  | _ => c
  end.

(** A string with every capital U made small. *)
Fixpoint small_u (s : string) : string :=
  match s with
  | EmptyString => EmptyString
  | String c s' =>
      String (if decide (c = "U"%char) then "u"%char else c) (small_u s')
  end.

(** A frame whose column labels are distinct.  On a label that occurs more
    than once [df[name]] is a frame and not a series, and the rules raise
    [AttributeError] on it; [frame_get] reads the frames whose labels are
    distinct, and what is said of the exceptions of [add_features] is said
    of these frames. *)
Definition distinct_labels (t : DataFrame) : Prop := NoDup (map fst t).
(** * Properties *)

(** ** Strings *)

Lemma append_empty_l s : "" +:+ s = s.
Proof. reflexivity. Qed.

Lemma append_cons_l c p s : String c p +:+ s = String c (p +:+ s).
Proof. reflexivity. Qed.

Lemma append_empty_r s : s +:+ "" = s.
Proof. induction s as [|c s IH]; [done|]. by rewrite append_cons_l, IH. Qed.

Ltac norm_append :=
  repeat first
    [ rewrite append_empty_l in * | rewrite append_cons_l in *
    | rewrite append_empty_r in * ].

Lemma endswith_spec s suffix : endswith s suffix = true ↔ has_suffix s suffix.
Proof.
  induction s as [|c s IH]; simpl.
  - rewrite orb_false_r, bool_decide_eq_true. split.
    + intros <-. by exists "".
    + intros [[|c p] Hp]; norm_append; congruence.
  - rewrite orb_true_iff, bool_decide_eq_true, IH. split.
    + intros [<- | [p ->]]; [by exists "" | by exists (String c p)].
    + intros [[|c' p] Hp]; norm_append; [by left | right].
      injection Hp as -> ->. by exists p.
Qed.

Lemma startswith_spec s p : startswith s p = true ↔ ∃ q, s = p +:+ q.
Proof.
  revert s. induction p as [|a p IH]; intros s; simpl.
  - split; [intros _; by exists s | done].
  - destruct s as [|b s].
    + split; [done | intros [q Hq]; norm_append; discriminate].
    + case_decide as Hab.
      * subst b. rewrite IH. split; intros [q Hq]; exists q; norm_append; congruence.
      * split; [done | intros [q Hq]; norm_append; congruence].
Qed.

Lemma contains_spec s pat : contains s pat = true ↔ has_infix s pat.
Proof.
  induction s as [|c s IH]; simpl.
  - rewrite orb_false_r, startswith_spec. split.
    + intros [q Hq]. by exists "", q.
    + intros [[|c p] [q Hq]]; norm_append; [by exists q | discriminate].
  - rewrite orb_true_iff, startswith_spec, IH. split.
    + intros [[q Hq] | (p & q & ->)]; [by exists "", q | by exists (String c p), q].
    + intros [[|c' p] [q Hq]]; norm_append; [left; by exists q | right].
      injection Hq as -> ->. by exists p, q.
Qed.

Lemma contains_self s : contains s s = true.
Proof.
  apply contains_spec. exists "", "". by norm_append.
Qed.

(** A capital M is not a small m: no string ends in both. *)
Lemma endswith_Female_not_Male s :
  endswith s "Female" = true → endswith s "Male" = false.
Proof.
  induction s as [|c s IH]; [done|].
  cbn [endswith]. rewrite orb_true_iff, bool_decide_eq_true.
  intros [[= -> ->] | Hs]; [by vm_compute|].
  rewrite (IH Hs), orb_false_r. apply bool_decide_eq_false.
  intros [= -> ->]. by vm_compute in Hs.
Qed.

(** ** Assignment through a mask *)

Lemma mask_assign_map {A} (f : A → bool) (v : A) (s : list A) :
  mask_assign (map f s) v s = map (λ x, if f x then v else x) s.
Proof. induction s as [|x s IH]; [done|]. unfold mask_assign in *. simpl. by rewrite IH. Qed.

Lemma mask_assign_map2 {A B} (f : B → bool) (g : B → A) (v : A) (l : list B) :
  mask_assign (map f l) v (map g l) = map (λ x, if f x then v else g x) l.
Proof. induction l as [|x l IH]; [done|]. unfold mask_assign in *. simpl. by rewrite IH. Qed.

Lemma replicate_map {A B} (v : A) (l : list B) :
  replicate (length l) v = map (λ _, v) l.
Proof. induction l as [|x l IH]; [done|]. simpl. by rewrite IH. Qed.

(** ** Sex *)

Lemma get_sex_rows (v : list string) (st : state) :
  get_sex (StrCol v) st = (inr (StrCol (map sex_of v)), st).
Proof.
  unfold get_sex, bind, str, ret. simpl. do 2 f_equal. f_equal.
  rewrite replicate_map, !mask_assign_map2. done.
Qed.

Lemma sex_of_rule s : sex_rule s (sex_of s).
Proof.
  unfold sex_rule, sex_of. rewrite <- !endswith_spec.
  destruct (endswith s "Female") eqn:HF.
  - rewrite (endswith_Female_not_Male s HF). intuition congruence.
  - destruct (endswith s "Male"); intuition congruence.
Qed.

(** C3: on every series of strings [get_sex] returns, without an error and
    without touching the state, a series of the same rows in which each
    row holds exactly one of female, male, unknown: female iff the stored
    value ends with Female, male iff it ends with Male and not with Female,
    unknown otherwise; a value ending in Female is never male; and the three
    values named by the specification get female, male and unknown. *)
Theorem get_sex_spec (v : list string) (st : state) :
  ∃ out, get_sex (StrCol v) st = (inr (StrCol out), st) ∧
         Forall2 sex_rule v out ∧
         get_sex (StrCol ["Spayed Female"; "Neutered Male"; "Unknown"]) st
         = (inr (StrCol ["female"; "male"; "unknown"]), st).
Proof.
  exists (map sex_of v). split; [apply get_sex_rows|]. split.
  - apply Forall2_fmap_r, Forall_Forall2_diag, Forall_forall.
    intros s _. apply sex_of_rule.
  - by rewrite get_sex_rows.
Qed.

(** ** Neutered *)

Lemma get_neutered_rows (v : list string) (st : state) :
  get_neutered (StrCol v) st = (inr (StrCol (map neutered_of v)), st).
Proof.
  unfold get_neutered, str_lower, bind, str, ret, isin. simpl. do 3 f_equal.
  rewrite !mask_assign_map, !map_map, mask_assign_map2.
  apply map_ext. intros s. unfold neutered_of, relabel.
  by destruct (bool_decide _).
Qed.

Lemma neutered_of_cases s :
  let x := lower s in
  neutered_of s =
    if contains x "neutered" || contains x "spayed" then "fixed"
    else if contains x "intact" then "intact"
    else if bool_decide (x = "fixed") then "fixed" else "unknown".
Proof.
  intros x. unfold neutered_of, relabel. fold x.
  destruct (contains x "neutered") eqn:H1; [done|].
  destruct (contains x "spayed") eqn:H2; [done|].
  destruct (contains x "intact") eqn:H3; [done|]. simpl.
  case_bool_decide as Hx; case_bool_decide as Hf; try done.
  - apply elem_of_cons in Hx as [-> | Hx]; [done|].
    apply list_elem_of_singleton in Hx as ->. by rewrite contains_self in H3.
  - subst x. rewrite Hf in Hx. exfalso. apply Hx. by left.
Qed.

Lemma neutered_of_rule s : neutered_rule s (neutered_of s).
Proof.
  unfold neutered_rule. rewrite <- !contains_spec, neutered_of_cases.
  destruct (contains (lower s) "neutered"), (contains (lower s) "spayed"),
    (contains (lower s) "intact") eqn:Hi; simpl;
    try case_bool_decide as Hf;
    try (assert (lower s ≠ "fixed")
           by (intros Hf'; rewrite Hf' in Hi; by vm_compute in Hi));
    intuition congruence.
Qed.

(** C1, as the code has it: on every series of strings [get_neutered]
    returns a series of the same rows, each holding exactly one of fixed,
    intact, unknown; fixed iff the lowered value contains neutered or spayed
    or is itself the word fixed, intact iff it contains intact and neither of
    those, and unknown for every value that contains none of the three and
    is not the word fixed. *)
Theorem get_neutered_spec (v : list string) (st : state) :
  ∃ out, get_neutered (StrCol v) st = (inr (StrCol out), st) ∧
         Forall2 neutered_rule v out ∧
         get_neutered (StrCol ["Spayed Female"; "Intact Male"; "Unknown"]) st
         = (inr (StrCol ["fixed"; "intact"; "unknown"]), st).
Proof.
  exists (map neutered_of v). split; [apply get_neutered_rows|]. split.
  - apply Forall2_fmap_r, Forall_Forall2_diag, Forall_forall.
    intros s _. apply neutered_of_rule.
  - by rewrite get_neutered_rows.
Qed.

(** C1, as the specification words it, fails on the value [Fixed]: its
    lowered form contains none of the three substrings, and it is labelled
    fixed. *)
Lemma get_neutered_Fixed :
  get_neutered (StrCol ["Fixed"]) (State ∅ [])
  = (inr (StrCol ["fixed"]), State ∅ []) ∧
  ¬ has_infix (lower "Fixed") "neutered" ∧
  ¬ has_infix (lower "Fixed") "spayed" ∧
  ¬ has_infix (lower "Fixed") "intact" ∧
  ¬ neutered_rule_as_claimed "Fixed" "fixed".
Proof.
  rewrite get_neutered_rows. unfold neutered_rule_as_claimed.
  rewrite <- !contains_spec. vm_compute.
  intuition congruence.
Qed.

(** ** Hair type *)

Lemma get_hair_type_rows (v : list string) (st : state) :
  get_hair_type (StrCol v) st = (inr (StrCol (map hair_of v)), st).
Proof.
  unfold get_hair_type, str_lower, bind, str, ret, isin, hair_step. simpl.
  do 3 f_equal.
  rewrite !mask_assign_map, !map_map, mask_assign_map2.
  apply map_ext. intros s. unfold hair_of, relabel. simpl.
  by destruct (bool_decide _).
Qed.

Lemma hair_of_cases s :
  let x := lower s in
  hair_of s =
    if contains x "shorthair" then "shorthair"
    else if contains x "medium hair" then "medium hair"
    else if contains x "longhair" then "longhair"
    else "unknown".
Proof.
  intros x. unfold hair_of, relabel. simpl. fold x.
  destruct (contains x "shorthair") eqn:H1; [done|].
  destruct (contains x "medium hair") eqn:H2; [done|].
  destruct (contains x "longhair") eqn:H3; [done|].
  simpl. case_bool_decide as Hx; [|done]. exfalso.
  unfold valid_hair_types in Hx. rewrite !elem_of_cons, elem_of_nil in Hx.
  destruct Hx as [Hx | [Hx | [Hx | []]]]; rewrite Hx in *;
    [ by rewrite contains_self in H1 | by rewrite contains_self in H2
    | by rewrite contains_self in H3 ].
Qed.

Lemma hair_of_rule s : hair_rule s (hair_of s).
Proof.
  unfold hair_rule, earliest_contained. rewrite hair_of_cases.
  set (x := lower s).
  destruct (contains x "shorthair") eqn:H1;
    [|destruct (contains x "medium hair") eqn:H2;
      [|destruct (contains x "longhair") eqn:H3]].
  - split; [left; exists 0%nat|done].
    split; [done|]. split; [by apply contains_spec | lia].
  - split; [left; exists 1%nat|rewrite <- contains_spec; congruence].
    split; [done|]. split; [by apply contains_spec|].
    intros j h Hj Hh. destruct j as [|j]; [|lia].
    injection Hh as <-. rewrite <- contains_spec. congruence.
  - split; [left; exists 2%nat|rewrite <- contains_spec; congruence].
    split; [done|]. split; [by apply contains_spec|].
    intros j h Hj Hh. destruct j as [|[|j]]; [..|lia];
      injection Hh as <-; rewrite <- contains_spec; congruence.
  - split; [right|rewrite <- contains_spec; congruence].
    split; [done|]. intros h Hh. rewrite <- contains_spec.
    unfold valid_hair_types in Hh. rewrite !elem_of_cons, elem_of_nil in Hh.
    destruct Hh as [-> | [-> | [-> | []]]]; congruence.
Qed.

(** C4: on every series of strings [get_hair_type] returns a series of the
    same rows, each holding the earliest of shorthair, medium hair, longhair
    that the lowered breed contains, and unknown when it contains none; a
    breed with both shorthair and longhair gets shorthair; and the breeds
    named by the specification get their labels. *)
Theorem get_hair_type_spec (v : list string) (st : state) :
  ∃ out, get_hair_type (StrCol v) st = (inr (StrCol out), st) ∧
         Forall2 hair_rule v out ∧
         get_hair_type
           (StrCol ["Domestic Shorthair Mix"; "Domestic Longhair"; "Beagle Mix";
                    "Longhair Shorthair Cross"]) st
         = (inr (StrCol ["shorthair"; "longhair"; "unknown"; "shorthair"]), st).
Proof.
  exists (map hair_of v). split; [apply get_hair_type_rows|]. split.
  - apply Forall2_fmap_r, Forall_Forall2_diag, Forall_forall.
    intros s _. apply hair_of_rule.
  - by rewrite get_hair_type_rows.
Qed.

(** ** Dogs and names *)

Lemma check_is_dog_rows (v : list string) (st : state) :
  check_is_dog (StrCol v) st
  = (inr (BoolCol (map is_dog_of v)), State (frames st) (log st ++ anomalies v)).
Proof.
  unfold check_is_dog, anomalies, str_lower, bind, str, ret. simpl.
  destruct (forallb id (isin ["dog"; "cat"] (map lower v))); simpl;
    rewrite map_map; [|done].
  destruct st as [fr lg]. simpl. by rewrite app_nil_r.
Qed.

Lemma check_has_name_rows (v : list string) (st : state) :
  check_has_name (StrCol v) st = (inr (BoolCol (map has_name_of v)), st).
Proof. unfold check_has_name, str_lower, bind, str, ret. simpl. by rewrite map_map. Qed.

(** C9: on every series of strings [check_is_dog] returns a series of the
    same rows, true in a row iff the lowered animal type is the word dog;
    it changes nothing but the log; and a row holding Bird gets false (and
    is reported once in the log). *)
Theorem check_is_dog_spec (v : list string) (st : state) :
  ∃ out st', check_is_dog (StrCol v) st = (inr (BoolCol out), st') ∧
             frames st' = frames st ∧
             Forall2 (λ s (b : bool), b = true ↔ lower s = "dog") v out ∧
             check_is_dog (StrCol ["Dog"; "Bird"; "cat"]) st
             = (inr (BoolCol [true; false; false]),
                State (frames st) (log st ++ [StrCol ["Bird"]])).
Proof.
  exists (map is_dog_of v), (State (frames st) (log st ++ anomalies v)).
  split; [apply check_is_dog_rows|]. split; [done|]. split.
  - apply Forall2_fmap_r, Forall_Forall2_diag, Forall_forall.
    intros s _. unfold is_dog_of. apply bool_decide_eq_true.
  - by rewrite check_is_dog_rows.
Qed.

(** ** Column names *)

Ltac by_char c := destruct c as [[] [] [] [] [] [] [] []]; by vm_compute.

Lemma char_lower_fixed_not_upper c : char_lower c = c → is_upper_az c = false.
Proof. by_char c. Qed.

Lemma char_lower_idemp c : char_lower (char_lower c) = char_lower c.
Proof. by_char c. Qed.

Lemma is_snake_char_lower c : is_snake_char c = true → char_lower c = c.
Proof. by_char c. Qed.

Lemma lower_idemp s : lower (lower s) = lower s.
Proof. induction s as [|c s IH]; [done|]. simpl. by rewrite char_lower_idemp, IH. Qed.

Lemma is_snake_lower s : is_snake s = true → lower s = s.
Proof.
  induction s as [|c s IH]; [done|]. simpl. intros [Hc Hs]%andb_true_iff.
  by rewrite is_snake_char_lower, IH.
Qed.

(** Without a capital letter neither substitution finds a match. *)
Lemma sub_upper_lower_fixed s : ∀ b, lower s = s → sub_upper_lower b s = s.
Proof.
  induction s as [|c s IH]; intros b Hs; [done|].
  injection Hs as Hc Hs. simpl. rewrite !IH by done.
  destruct (b && is_lower_az c); [done|].
  destruct s as [|u [|l s]]; [done..|].
  injection Hs as Hu _. rewrite (char_lower_fixed_not_upper u Hu).
  by rewrite andb_false_r.
Qed.

Lemma sub_lower_upper_fixed s : lower s = s → sub_lower_upper s = s.
Proof.
  induction s as [|c s IH]; intros Hs; [done|].
  injection Hs as Hc Hs. simpl. rewrite !IH by done.
  destruct s as [|u s]; [done|].
  injection Hs as Hu _. rewrite (char_lower_fixed_not_upper u Hu).
  by rewrite andb_false_r.
Qed.

(** C6: [convert_camel_case] returns every name that is already in lower
    case unchanged, in particular every name of small letters, digits and
    underscores, and so converting twice is converting once; DateTime
    becomes date_time, AnimalID becomes animal_id, and SexuponOutcome, once
    [upon] is rewritten to [Upon], becomes sex_upon_outcome. *)
Theorem convert_camel_case_spec :
  (∀ s, lower s = s → convert_camel_case s = s) ∧
  (∀ s, is_snake s = true → convert_camel_case s = s) ∧
  (∀ s, convert_camel_case (convert_camel_case s) = convert_camel_case s) ∧
  convert_camel_case "DateTime" = "date_time" ∧
  convert_camel_case "AnimalID" = "animal_id" ∧
  replace "SexuponOutcome" "upon" "Upon" = "SexUponOutcome" ∧
  convert_camel_case "SexUponOutcome" = "sex_upon_outcome" ∧
  rename_column "SexuponOutcome" = "sex_upon_outcome".
Proof.
  assert (Hfix : ∀ s, lower s = s → convert_camel_case s = s).
  { intros s Hs. unfold convert_camel_case.
    by rewrite sub_upper_lower_fixed, sub_lower_upper_fixed. }
  split; [done|]. split; [intros s Hs; by apply Hfix, is_snake_lower|].
  split; [|by vm_compute].
  intros s. apply Hfix. unfold convert_camel_case. apply lower_idemp.
Qed.

Lemma convert_camel_case_witness :
  lower "sex_upon_outcome" = "sex_upon_outcome" ∧
  convert_camel_case "sex_upon_outcome" = "sex_upon_outcome".
Proof.
  split; [reflexivity|].
  apply (proj1 convert_camel_case_spec). reflexivity.
Defined.

(** ** Age in days *)

Lemma apply_eq {A B} (f : A → M B) (g : A → exn + B) (s : list A) (st : state) :
  (∀ x st, f x st = (g x, st)) → apply f s st = (apply_pure g s, st).
Proof.
  intros Hf. induction s as [|x s IH]; [done|].
  simpl. unfold bind. rewrite Hf. destruct (g x); [done|].
  rewrite IH. by destruct (apply_pure g s).
Qed.

Lemma time_of_pure x st : time_of x st = (pure_result (time_of x), st).
Proof.
  unfold pure_result, time_of, bind, list_getitem, ret, raise.
  destruct x as [|x0 rest]; simpl; [done|]. by case_bool_decide.
Qed.

Lemma period_of_pure x st : period_of x st = (pure_result (period_of x), st).
Proof.
  unfold pure_result, period_of, bind, list_getitem, ret, raise.
  destruct x as [|x0 [|u rest]]; simpl; [done|..]; by case_bool_decide.
Qed.

Lemma astype_float_pure t st :
  astype_float t st = (pure_result (astype_float t), st).
Proof.
  unfold pure_result, astype_float, ret, raise.
  destruct t as [s|f]; [|done]. by destruct (py_float s).
Qed.

(** The three passes over the rows, without the state. *)
Lemma compute_days_pure (v : list string) (st : state) :
  compute_days_upon_outcome (StrCol v) st =
  (match apply_pure (λ x, pure_result (time_of x)) (map split v) with
   | inl e => inl e
   | inr time =>
       match apply_pure (λ x, pure_result (period_of x)) (map split v) with
       | inl e => inl e
       | inr period =>
           match apply_pure (λ t, pure_result (astype_float t)) time with
           | inl e => inl e
           | inr tf =>
               inr (FloatCol (zip_with fmul tf (map (map_dict period_mapping) period)))
           end
       end
   end, st).
Proof.
  unfold compute_days_upon_outcome, bind, str, ret. simpl.
  rewrite (apply_eq _ _ _ _ time_of_pure).
  destruct (apply_pure (λ x, pure_result (time_of x)) _) as [|time]; [done|].
  rewrite (apply_eq _ _ _ _ period_of_pure).
  destruct (apply_pure (λ x, pure_result (period_of x)) _) as [|period]; [done|].
  rewrite (apply_eq _ _ _ _ astype_float_pure).
  by destruct (apply_pure (λ t, pure_result (astype_float t)) _).
Qed.

(** One row through the three passes. *)
Lemma days_of_stages (s : string) (y : float64) :
  days_of s = Some y ↔
  ∃ t p f, pure_result (time_of (split s)) = inr t ∧
           pure_result (period_of (split s)) = inr p ∧
           pure_result (astype_float t) = inr f ∧
           y = fmul f (map_dict period_mapping p).
Proof.
  unfold days_of, pure_result, time_of, period_of, astype_float, bind,
    list_getitem, ret, raise.
  destruct (split s) as [|x0 [|u rest]]; simpl.
  - split; [done|]. by intros (t & p & f & [=] & _).
  - case_bool_decide as Hx; rewrite ?bool_decide_eq_false_2 by tauto;
      rewrite ?bool_decide_eq_true_2 by done; simpl.
    + split; [intros [= <-]; by exists (inr nan), None, nan|].
      by intros (t & p & f & [= <-] & [= <-] & [= <-] & ->).
    + split; [done|]. by intros (t & p & f & _ & [=] & _).
  - case_bool_decide as Hx; rewrite ?bool_decide_eq_false_2 by tauto;
      rewrite ?bool_decide_eq_true_2 by done; simpl.
    + split; [intros [= <-]; by exists (inr nan), None, nan|].
      by intros (t & p & f & [= <-] & [= <-] & [= <-] & ->).
    + destruct (py_float x0) as [f0|] eqn:Hf; simpl.
      * split; [intros [= <-]; exists (inl x0), (Some u), f0; by rewrite Hf|].
        intros (t & p & f & [= <-] & [= <-] & Ht & ->).
        rewrite Hf in Ht. by injection Ht as <-.
      * split; [done|]. intros (t & p & f & [= <-] & _ & Ht & _).
        by rewrite Hf in Ht.
Qed.

Lemma stages_of_rows (v : list string) (out : list float64) :
  Forall2 (λ s y, days_of s = Some y) v out →
  ∃ time period tf,
    apply_pure (λ x, pure_result (time_of x)) (map split v) = inr time ∧
    apply_pure (λ x, pure_result (period_of x)) (map split v) = inr period ∧
    apply_pure (λ t, pure_result (astype_float t)) time = inr tf ∧
    out = zip_with fmul tf (map (map_dict period_mapping) period).
Proof.
  induction 1 as [|s y v out Hs _ (time & period & tf & H1 & H2 & H3 & ->)].
  - by exists [], [], [].
  - apply days_of_stages in Hs as (t & p & f & Ht & Hp & Hf & ->).
    exists (t :: time), (p :: period), (f :: tf). simpl.
    by rewrite Ht, Hp, Hf, H1, H2, H3.
Qed.

Lemma rows_of_stages (v : list string) time period tf :
  apply_pure (λ x, pure_result (time_of x)) (map split v) = inr time →
  apply_pure (λ x, pure_result (period_of x)) (map split v) = inr period →
  apply_pure (λ t, pure_result (astype_float t)) time = inr tf →
  Forall2 (λ s y, days_of s = Some y) v
          (zip_with fmul tf (map (map_dict period_mapping) period)).
Proof.
  revert time period tf. induction v as [|s v IH]; intros time period tf; simpl.
  - intros [= <-] [= <-] [= <-]. constructor.
  - destruct (pure_result (time_of (split s))) as [|t] eqn:Ht; [done|].
    destruct (apply_pure (λ x, pure_result (time_of x)) (map split v))
      as [|time'] eqn:H1; [done|].
    intros [= <-].
    destruct (pure_result (period_of (split s))) as [|p] eqn:Hp; [done|].
    destruct (apply_pure (λ x, pure_result (period_of x)) (map split v))
      as [|period'] eqn:H2; [done|].
    intros [= <-]. simpl.
    destruct (pure_result (astype_float t)) as [|f] eqn:Hf; [done|].
    destruct (apply_pure (λ t, pure_result (astype_float t)) time')
      as [|tf'] eqn:H3; [done|].
    intros [= <-]. simpl. constructor; [|by apply (IH time')].
    apply days_of_stages. by exists t, p, f.
Qed.

(** The rows decide the outcome: the series of the rows' days when every
    row has one, an exception when some row has none. *)
Lemma compute_days_rows (v : list string) (st : state) :
  match mapM days_of v with
  | Some out => compute_days_upon_outcome (StrCol v) st = (inr (FloatCol out), st)
  | None => ∃ e, compute_days_upon_outcome (StrCol v) st = (inl e, st)
  end.
Proof.
  rewrite compute_days_pure.
  destruct (mapM days_of v) as [out|] eqn:Hm.
  - apply mapM_Some, stages_of_rows in Hm as (time & period & tf & -> & -> & -> & ->).
    done.
  - destruct (apply_pure (λ x, pure_result (time_of x)) (map split v))
      as [|time] eqn:H1; [by eexists|].
    destruct (apply_pure (λ x, pure_result (period_of x)) (map split v))
      as [|period] eqn:H2; [by eexists|].
    destruct (apply_pure (λ t, pure_result (astype_float t)) time)
      as [|tf] eqn:H3; [by eexists|].
    pose proof (rows_of_stages _ _ _ _ H1 H2 H3) as Hr.
    apply mapM_Some in Hr. congruence.
Qed.

Lemma append_assoc_str (a b c : string) : (a +:+ b) +:+ c = a +:+ (b +:+ c).
Proof. induction a as [|x a IH]; [done|]. norm_append. by rewrite IH. Qed.

Lemma split_go_token (m : string) : ∀ tok rest,
  no_space m = true → split_go tok (m +:+ rest) = split_go (tok +:+ m) rest.
Proof.
  induction m as [|c m IH]; intros tok rest Hm; [by norm_append|].
  simpl in Hm. apply andb_true_iff in Hm as [Hc Hm]. apply negb_true_iff in Hc.
  rewrite append_cons_l. simpl. rewrite Hc, (IH _ _ Hm), append_assoc_str.
  by norm_append.
Qed.

Lemma split_number_unit (m u : string) :
  is_token m → is_token u → split (m +:+ " " +:+ u) = [m; u].
Proof.
  intros [Hm Hm'] [Hu Hu']. unfold split.
  rewrite (split_go_token m "" _ Hm'). norm_append. simpl.
  rewrite decide_False by done. f_equal.
  rewrite <- (append_empty_r u) at 1. rewrite (split_go_token u "" _ Hu').
  norm_append. simpl. by rewrite decide_False.
Qed.

Lemma period_mapping_table (u : string) (k : Z) :
  period_mapping !! u = Some k ↔ (u, k) ∈ unit_table.
Proof.
  unfold period_mapping. rewrite <- elem_of_list_to_map.
  - unfold unit_table. rewrite !elem_of_cons, !elem_of_nil. tauto.
  - apply (bool_decide_unpack _). by vm_compute.
Qed.

Lemma fmul_nan_r (f : float64) : fmul f nan = nan.
Proof. by destruct f. Qed.

Lemma unit_days_lookup (u : string) (d : float64) :
  (u, d) ∈ unit_days → ∃ k, period_mapping !! u = Some k ∧ float_of_int k = d.
Proof.
  unfold unit_days. rewrite !elem_of_cons, elem_of_nil.
  intros [H|[H|[H|[H|[H|[H|[H|[H|[]]]]]]]]]; injection H as -> ->;
    eexists; split; by vm_compute.
Qed.

Lemma unit_days_missing (u : string) :
  u ∉ map fst unit_days → period_mapping !! u = None.
Proof.
  intros Hu. destruct (period_mapping !! u) as [k|] eqn:Hk; [|done].
  exfalso. apply Hu. apply period_mapping_table in Hk.
  unfold unit_table in Hk. rewrite !elem_of_cons, elem_of_nil in Hk.
  unfold unit_days. simpl. rewrite !elem_of_cons, elem_of_nil.
  destruct Hk as [H|[H|[H|[H|[H|[H|[H|[H|[]]]]]]]]]; injection H as -> _; tauto.
Qed.

Lemma days_of_age_rule (s : string) (y : float64) :
  days_of s = Some y → age_rule s y.
Proof.
  unfold days_of, age_rule, map_dict. intros Hy. repeat split.
  - intros m u rest f d Hs Hm Hf Hd. rewrite Hs in Hy. simpl in Hy.
    rewrite bool_decide_eq_false_2, Hf in Hy by done. simpl in Hy.
    apply unit_days_lookup in Hd as (k & Hk & <-).
    rewrite Hk in Hy. by injection Hy as <-.
  - intros m u rest Hs Hm Hk%unit_days_missing. rewrite Hs in Hy. simpl in Hy.
    rewrite bool_decide_eq_false_2 in Hy by done.
    destruct (py_float m) as [f|]; [|done]. simpl in Hy.
    rewrite Hk in Hy. injection Hy as <-. by rewrite fmul_nan_r.
  - intros rest Hs. rewrite Hs in Hy. simpl in Hy. by injection Hy as <-.
Qed.

Lemma days_of_unit_rule (s : string) (y : float64) :
  days_of s = Some y → unit_rule s y.
Proof.
  unfold days_of, unit_rule, map_dict. intros Hy m u rest Hs Hm Hk.
  rewrite Hs in Hy. simpl in Hy.
  rewrite bool_decide_eq_false_2 in Hy by done.
  destruct (py_float m) as [f|]; [|done]. simpl in Hy.
  rewrite Hk in Hy. injection Hy as <-. by rewrite fmul_nan_r.
Qed.

Lemma age_ok_days_of (s : string) : age_ok s ↔ is_Some (days_of s).
Proof.
  unfold age_ok, days_of. destruct (split s) as [|x0 rest].
  - split; [intros [[? [=]] | (? & ? & ? & ? & [=] & _)] | by intros [? [=]]].
  - case_bool_decide as Hx.
    + subst x0. split; [done|]. intros _. left. by exists rest.
    + destruct rest as [|u rest].
      * split; [|by intros [? [=]]].
        intros [[? [= ? ?]] | (? & ? & ? & ? & [=] & _)]. done.
      * destruct (py_float x0) as [f|] eqn:Hf; simpl.
        -- split; [done|]. intros _. right. by exists x0, u, rest, f.
        -- split; [|by intros [? [=]]].
           intros [[? [= ? ?]] | (? & ? & ? & ? & [= <- <- <-] & _ & Hf')];
             [done | congruence].
Qed.

Lemma compute_days_ok (v : list string) (st : state) :
  Forall age_ok v →
  ∃ out, compute_days_upon_outcome (StrCol v) st = (inr (FloatCol out), st) ∧
         Forall2 (λ s y, days_of s = Some y) v out.
Proof.
  intros Hv. pose proof (compute_days_rows v st) as Hrun.
  destruct (mapM days_of v) as [out|] eqn:Hm.
  - exists out. split; [done|]. by apply mapM_Some.
  - apply mapM_None in Hm. apply Exists_exists in Hm as (s & Hin & Hs).
    rewrite Forall_forall in Hv. apply Hv, age_ok_days_of in Hin as [y Hy].
    congruence.
Qed.

(** C5: for every series of ages.  When every age has the magnitude
    Unknown, or a magnitude that [float] reads and a unit after it,
    [compute_days_upon_outcome] returns; and whenever it returns, it returns
    a series of the same rows in which a row with a number and a unit of the
    table holds the number times the days of the unit, a row whose unit is
    not in the table holds a missing value, and a row whose magnitude is
    Unknown holds a missing value.  The table of the code is the one of the
    specification, a number and a unit separated by a space are the two
    tokens of the age, [float] reads 2, 3 and 1 as 2.0, 3.0 and 1.0, and the
    five ages named in the specification give 730.0, 21.0, 1.0, missing and
    missing. *)
Theorem compute_days_spec (v : list string) (st : state) :
  (Forall age_ok v →
   ∃ out, compute_days_upon_outcome (StrCol v) st = (inr (FloatCol out), st) ∧
          Forall2 age_rule v out) ∧
  (∀ out st', compute_days_upon_outcome (StrCol v) st = (inr (FloatCol out), st') →
              Forall2 age_rule v out) ∧
  (∀ u k, period_mapping !! u = Some k ↔ (u, k) ∈ unit_table) ∧
  (∀ m u, is_token m → is_token u → split (m +:+ " " +:+ u) = [m; u]) ∧
  py_float "2" = Some f64_2 ∧ py_float "3" = Some f64_3 ∧
  py_float "1" = Some f64_1 ∧
  compute_days_upon_outcome
    (StrCol ["2 years"; "3 weeks"; "1 day"; "Unknown"; "5 fortnights"]) st
  = (inr (FloatCol [f64_730; f64_21; f64_1; nan; nan]), st).
Proof.
  assert (Hany : ∀ out st',
            compute_days_upon_outcome (StrCol v) st = (inr (FloatCol out), st') →
            Forall2 age_rule v out).
  { intros out st' Hrun. pose proof (compute_days_rows v st) as Hrows.
    destruct (mapM days_of v) as [out'|] eqn:Hm;
      [|destruct Hrows as [e He]; congruence].
    rewrite Hrun in Hrows. injection Hrows as -> _.
    apply mapM_Some in Hm.
    eapply Forall2_impl; [exact Hm | apply days_of_age_rule]. }
  split.
  { intros Hv. destruct (compute_days_ok v st Hv) as (out & Hrun & _).
    exists out. split; [done | by eapply Hany]. }
  split; [exact Hany|].
  split; [apply period_mapping_table|]. split; [apply split_number_unit|].
  do 3 (split; [by vm_compute|]).
  pose proof (compute_days_rows
    ["2 years"; "3 weeks"; "1 day"; "Unknown"; "5 fortnights"] st) as Hex.
  by vm_compute in Hex.
Qed.

Lemma compute_days_spec_witness :
  Forall age_ok ["2 years"; "Unknown"; "5 fortnights"; "3 weeks old"] ∧
  ∃ out,
    compute_days_upon_outcome
      (StrCol ["2 years"; "Unknown"; "5 fortnights"; "3 weeks old"]) (State ∅ [])
    = (inr (FloatCol out), State ∅ []) ∧
    Forall2 age_rule ["2 years"; "Unknown"; "5 fortnights"; "3 weeks old"] out.
Proof.
  assert (H : Forall age_ok ["2 years"; "Unknown"; "5 fortnights"; "3 weeks old"]).
  { constructor; [|constructor; [|constructor; [|constructor; [|constructor]]]].
    - right. exists "2", "years", [], f64_2. by vm_compute.
    - left. by exists [].
    - right. exists "5", "fortnights", [], (B64 5 0). by vm_compute.
    - right. exists "3", "weeks", ["old"], f64_3. by vm_compute. }
  split; [exact H|].
  exact (proj1 (compute_days_spec _ (State ∅ [])) H).
Defined.

(** C2, as the code has it: for every series of ages, either every age has
    the magnitude Unknown or a magnitude that [float] reads followed by a
    unit token, and then [compute_days_upon_outcome] returns a series with
    a value for every row, missing where the unit is not in the table; or
    some age is not like that, and then it raises and returns no row. *)
Theorem compute_days_total (v : list string) (st : state) :
  (Forall age_ok v ∧
   ∃ out, compute_days_upon_outcome (StrCol v) st = (inr (FloatCol out), st) ∧
          length out = length v ∧
          Forall2 unit_rule v out) ∨
  (Exists (λ s, ¬ age_ok s) v ∧
   ∃ e, compute_days_upon_outcome (StrCol v) st = (inl e, st)).
Proof.
  pose proof (compute_days_rows v st) as Hrun.
  destruct (mapM days_of v) as [out|] eqn:Hm.
  - left. apply mapM_Some in Hm. split.
    + apply Forall_forall. intros s Hs. apply age_ok_days_of.
      apply list_elem_of_lookup in Hs as [i Hi].
      destruct (Forall2_lookup_l _ _ _ _ _ Hm Hi) as (y & _ & Hy). by exists y.
    + exists out. split; [done|]. split; [symmetry; by eapply Forall2_length|].
      eapply Forall2_impl; [exact Hm | apply days_of_unit_rule].
  - right. split; [|done]. apply mapM_None in Hm.
    eapply Exists_impl; [exact Hm|]. intros s Hs Hok.
    apply age_ok_days_of in Hok as [y Hy]. congruence.
Qed.

(** C2, as the specification words it, fails on a magnitude that is not a
    number: [float] raises on [abc], and the whole series is lost. *)
Lemma compute_days_raises :
  py_float "abc" = None ∧
  compute_days_upon_outcome (StrCol ["2 years"; "abc years"]) (State ∅ [])
  = (inl (ValueError "abc"), State ∅ []) ∧
  ¬ days_never_raise ["2 years"; "abc years"].
Proof.
  split; [by vm_compute|]. split; [by vm_compute|].
  intros H. destruct (H (State ∅ [])) as (out & Hrun & _).
  by vm_compute in Hrun.
Qed.

Lemma compute_days_inv (v : list string) (out : list float64) (st st' : state) :
  compute_days_upon_outcome (StrCol v) st = (inr (FloatCol out), st') →
  mapM days_of v = Some out.
Proof.
  intros Hrun. pose proof (compute_days_rows v st) as Hrows.
  destruct (mapM days_of v) as [out'|]; [|destruct Hrows as [e He]]; congruence.
Qed.

(** C10: an age whose only token is the literal Unknown never has its
    second token read: [period_of] returns [None] for it without an error,
    the series that holds just that age gives one missing value, and put
    anywhere among ages that give values it adds a missing value in its
    place and changes nothing else. *)
Theorem compute_days_unknown (s : string) (st : state) :
  split s = ["Unknown"] →
  period_of (split s) st = (inr None, st) ∧
  time_of (split s) st = (inr (inr nan), st) ∧
  compute_days_upon_outcome (StrCol [s]) st = (inr (FloatCol [nan]), st) ∧
  (∀ v1 v2 out1 out2,
     compute_days_upon_outcome (StrCol v1) st = (inr (FloatCol out1), st) →
     compute_days_upon_outcome (StrCol v2) st = (inr (FloatCol out2), st) →
     compute_days_upon_outcome (StrCol (v1 ++ s :: v2)) st
     = (inr (FloatCol (out1 ++ nan :: out2)), st)) ∧
  compute_days_upon_outcome (StrCol ["Unknown"]) st = (inr (FloatCol [nan]), st).
Proof.
  intros Hs.
  assert (Hrow : days_of s = Some nan) by (unfold days_of; by rewrite Hs).
  split; [by rewrite Hs|]. split; [by rewrite Hs|].
  assert (Hmid : ∀ v1 v2 out1 out2,
    compute_days_upon_outcome (StrCol v1) st = (inr (FloatCol out1), st) →
    compute_days_upon_outcome (StrCol v2) st = (inr (FloatCol out2), st) →
    compute_days_upon_outcome (StrCol (v1 ++ s :: v2)) st
    = (inr (FloatCol (out1 ++ nan :: out2)), st)).
  { intros v1 v2 out1 out2 H1%compute_days_inv H2%compute_days_inv.
    apply mapM_Some in H1, H2.
    pose proof (compute_days_rows (v1 ++ s :: v2) st) as Hrun.
    rewrite (mapM_Some_2 days_of _ (out1 ++ nan :: out2)) in Hrun; [done|].
    apply Forall2_app; [done|]. by constructor. }
  split; [|split; [exact Hmid|]].
  - apply (Hmid [] [] [] []); by vm_compute.
  - pose proof (compute_days_rows ["Unknown"] st) as Hex. by vm_compute in Hex.
Qed.

Lemma compute_days_unknown_witness :
  split "Unknown" = ["Unknown"] ∧
  compute_days_upon_outcome (StrCol ["Unknown"]) (State ∅ [])
  = (inr (FloatCol [nan]), State ∅ []).
Proof.
  split; [reflexivity|].
  apply (compute_days_unknown "Unknown" (State ∅ [])). reflexivity.
Defined.

(** ** Frames *)

Lemma bind_inr {A B} (m : M A) (k : A → M B) st a st1 :
  m st = (inr a, st1) → bind m k st = k a st1.
Proof. unfold bind. by intros ->. Qed.

Lemma bind_inl {A B} (m : M A) (k : A → M B) st e st1 :
  m st = (inl e, st1) → bind m k st = (inl e, st1).
Proof. unfold bind. by intros ->. Qed.

Lemma frame_get_set (c name : string) (s : Series) (t : DataFrame) :
  frame_get c (frame_set name s t) = if decide (name = c) then Some s else frame_get c t.
Proof.
  induction t as [|[n s'] t IH]; simpl.
  - by repeat case_decide.
  - repeat (case_decide; simpl; subst); try done.
Qed.

Lemma frame_set_same (name : string) (s : Series) (t : DataFrame) :
  frame_get name t = Some s → frame_set name s t = t.
Proof.
  induction t as [|[n s'] t IH]; simpl; [done|].
  case_decide; [by intros [= ->]|]. intros Hget. by rewrite IH.
Qed.

Lemma frame_set_names (name : string) (s : Series) (t : DataFrame) :
  map fst (frame_set name s t)
  = map fst t ++ (if decide (name ∈ map fst t) then [] else [name]).
Proof.
  induction t as [|[n s'] t IH]; simpl; [done|].
  destruct (decide (n = name)) as [->|Hn]; simpl.
  - rewrite decide_True by left. by rewrite app_nil_r.
  - rewrite IH. do 2 f_equal.
    destruct (decide (name ∈ map fst t)) as [Hin|Hin].
    + rewrite decide_True; [done|]. by right.
    + rewrite decide_False; [done|]. rewrite elem_of_cons.
      intros [Heq|Hin']; [congruence|done].
Qed.

Lemma frame_set_rows (n : nat) (name : string) (s : Series) (t : DataFrame) :
  series_len s = n → has_rows n t → has_rows n (frame_set name s t).
Proof.
  intros Hs. unfold has_rows. induction t as [|[c s'] t IH]; simpl.
  - intros _. by repeat constructor.
  - intros [Hc Ht]%Forall_cons. case_decide; constructor; auto.
Qed.

Lemma state_log_nil (st : state) : State (frames st) (log st ++ []) = st.
Proof. destruct st. simpl. by rewrite app_nil_r. Qed.

Lemma check_is_dog_ok :
  rule_ok check_is_dog (λ v, Some (BoolCol (map is_dog_of v))) anomalies.
Proof. intros [v|v|v|v] st; [apply check_is_dog_rows|by eexists _, _..]. Qed.

Lemma check_has_name_ok :
  rule_ok check_has_name (λ v, Some (BoolCol (map has_name_of v))) (λ _, []).
Proof.
  intros [v|v|v|v] st; [|by eexists _, _..].
  by rewrite state_log_nil, check_has_name_rows.
Qed.

Lemma get_sex_ok :
  rule_ok get_sex (λ v, Some (StrCol (map sex_of v))) (λ _, []).
Proof.
  intros [v|v|v|v] st; [|by eexists _, _..].
  by rewrite state_log_nil, get_sex_rows.
Qed.

Lemma get_neutered_ok :
  rule_ok get_neutered (λ v, Some (StrCol (map neutered_of v))) (λ _, []).
Proof.
  intros [v|v|v|v] st; [|by eexists _, _..].
  by rewrite state_log_nil, get_neutered_rows.
Qed.

Lemma get_hair_type_ok :
  rule_ok get_hair_type (λ v, Some (StrCol (map hair_of v))) (λ _, []).
Proof.
  intros [v|v|v|v] st; [|by eexists _, _..].
  by rewrite state_log_nil, get_hair_type_rows.
Qed.

Lemma compute_days_upon_outcome_ok :
  rule_ok compute_days_upon_outcome (λ v, FloatCol <$> mapM days_of v) (λ _, []).
Proof.
  intros [v|v|v|v] st; [|by eexists _, _..].
  pose proof (compute_days_rows v st) as Hrun.
  destruct (mapM days_of v) as [out|]; simpl.
  - by rewrite state_log_nil.
  - destruct Hrun as [e He]. by exists e, st.
Qed.

(** One stanza, run on a state whose frame at [l] is [t]. *)
Lemma derive_run l src rule dst R L t fr0 st :
  rule_ok rule R L →
  frames st = <[l := t]> fr0 →
  match str_column src t ≫= R with
  | Some r =>
      ∃ v, str_column src t = Some v ∧
           derive l src rule dst st
           = (inr (), State (<[l := frame_set dst r t]> fr0) (log st ++ L v))
  | None =>
      ∃ e st', derive l src rule dst st = (inl e, st') ∧ frames st' = frames st
  end.
Proof.
  intros Hrule Hfr.
  assert (Hderef : ∀ st1, frames st1 = frames st → deref l st1 = (inr t, st1)).
  { intros st1 Hst1. unfold deref. by rewrite Hst1, Hfr, lookup_insert_eq. }
  unfold derive, str_column.
  assert (Hget : getitem l src st
                 = match frame_get src t with
                   | Some c => (inr c, st)
                   | None => (inl (KeyError src), st)
                   end).
  { unfold getitem. rewrite (bind_inr _ _ _ _ _ (Hderef st eq_refl)).
    by destruct (frame_get src t). }
  destruct (frame_get src t) as [c|]; simpl;
    [|exists (KeyError src), st; by rewrite (bind_inl _ _ _ _ _ Hget)].
  rewrite (bind_inr _ _ _ _ _ Hget). specialize (Hrule c st).
  destruct c as [v|v|v|v]; simpl;
    try (destruct Hrule as (e & st' & Hr & Hfr'); exists e, st';
         by rewrite (bind_inl _ _ _ _ _ Hr)).
  destruct (R v) as [r|]; simpl.
  - exists v. split; [done|]. rewrite (bind_inr _ _ _ _ _ Hrule).
    unfold setitem.
    rewrite (bind_inr _ _ _ _ _ (Hderef (State (frames st) (log st ++ L v)) eq_refl)).
    simpl.
    by rewrite Hfr, insert_insert_eq.
  - destruct Hrule as (e & st' & Hr & Hfr'). exists e, st'.
    by rewrite (bind_inl _ _ _ _ _ Hr).
Qed.

Lemma str_column_set_ne (c name : string) (s : Series) (t : DataFrame) :
  name ≠ c → str_column c (frame_set name s t) = str_column c t.
Proof. intros Hne. unfold str_column. by rewrite frame_get_set, decide_False. Qed.

(** A stanza followed by the rest of the function. *)
Lemma stanza_step {A} l src rule dst R L t fr0 lg (K : unit → M A) :
  rule_ok rule R L →
  match str_column src t ≫= R with
  | Some r =>
      ∃ v, str_column src t = Some v ∧
           bind (derive l src rule dst) K (State (<[l := t]> fr0) lg)
           = K () (State (<[l := frame_set dst r t]> fr0) (lg ++ L v))
  | None =>
      ∃ e st', bind (derive l src rule dst) K (State (<[l := t]> fr0) lg)
               = (inl e, st') ∧
               frames st' = <[l := t]> fr0
  end.
Proof.
  intros Hok.
  pose proof (derive_run l src rule dst R L t fr0 (State (<[l := t]> fr0) lg)
                Hok eq_refl) as Hrun.
  destruct (str_column src t ≫= R) as [r|].
  - destruct Hrun as (v & Hv & Hrun). exists v. split; [done|].
    by rewrite (bind_inr _ _ _ _ _ Hrun).
  - destruct Hrun as (e & st' & Hrun & Hfr). exists e, st'.
    by rewrite (bind_inl _ _ _ _ _ Hrun).
Qed.

Lemma add_features_stanzas (df : loc) :
  add_features df =
  (l <~ copy df ;;
   derive l "animal_type" check_is_dog "is_dog" ;;;
   derive l "name" check_has_name "has_name" ;;;
   derive l "sex_upon_outcome" get_sex "sex" ;;;
   derive l "sex_upon_outcome" get_neutered "neutered" ;;;
   derive l "breed" get_hair_type "hair_type" ;;;
   derive l "age_upon_outcome" compute_days_upon_outcome "days_upon_outcome" ;;;
   ret l).
Proof. reflexivity. Qed.

Lemma copy_run (df : loc) (t : DataFrame) (st : state) :
  frames st !! df = Some t →
  copy df st
  = (inr (fresh (dom (frames st))),
     State (<[fresh (dom (frames st)) := t]> (frames st)) (log st)).
Proof.
  intros Hdf. unfold copy.
  assert (Hderef : deref df st = (inr t, st)) by (unfold deref; by rewrite Hdf).
  by rewrite (bind_inr _ _ _ _ _ Hderef).
Qed.

Ltac stanza Hok :=
  lazymatch goal with
  | |- context [bind (derive ?l ?src ?rule ?dst) ?K (State (<[?l := ?t]> ?fr0) ?lg)] =>
      let Hstep := fresh "Hstep" in
      pose proof (stanza_step l src rule dst _ _ t fr0 lg K Hok) as Hstep;
      rewrite ?str_column_set_ne in Hstep by done
  end.

(** The whole of [add_features], run on a state whose frame at [df] is [t]:
    a new frame with the derived columns set, or an exception that leaves
    a partial copy behind. *)
Lemma add_features_run (st : state) (df : loc) (t : DataFrame) :
  frames st !! df = Some t →
  let l := fresh (dom (frames st)) in
  match features t with
  | Some cols =>
      add_features df st
      = (inr l, State (<[l := frame_set_all cols t]> (frames st))
                      (log st ++ features_log t))
  | None =>
      ∃ e st' tp, add_features df st = (inl e, st') ∧
                  frames st' = <[l := tp]> (frames st)
  end.
Proof.
  intros Hdf l. rewrite add_features_stanzas.
  rewrite (bind_inr _ _ _ _ _ (copy_run df t st Hdf)). fold l.
  unfold features, features_log.
  stanza check_is_dog_ok.
  destruct (str_column "animal_type" t) as [a|]; simpl in *;
    [destruct Hstep as (? & [= <-] & ->)
    |destruct Hstep as (e & st' & -> & Hfr); by eexists _, _, _].
  stanza check_has_name_ok.
  destruct (str_column "name" t) as [n|]; simpl in *;
    [destruct Hstep as (? & [= <-] & ->)
    |destruct Hstep as (e & st' & -> & Hfr); by eexists _, _, _].
  stanza get_sex_ok.
  destruct (str_column "sex_upon_outcome" t) as [x|] eqn:Hx; simpl in *;
    [destruct Hstep as (? & [= <-] & ->)
    |destruct Hstep as (e & st' & -> & Hfr); by eexists _, _, _].
  stanza get_neutered_ok. rewrite Hx in Hstep. simpl in Hstep.
  destruct Hstep as (? & [= <-] & ->).
  stanza get_hair_type_ok.
  destruct (str_column "breed" t) as [b|]; simpl in *;
    [destruct Hstep as (? & [= <-] & ->)
    |destruct Hstep as (e & st' & -> & Hfr); by eexists _, _, _].
  stanza compute_days_upon_outcome_ok.
  destruct (str_column "age_upon_outcome" t) as [g|]; simpl in *;
    [|destruct Hstep as (e & st' & -> & Hfr); by eexists _, _, _].
  destruct (mapM days_of g) as [days|]; simpl in *;
    [destruct Hstep as (? & [= <-] & ->)
    |destruct Hstep as (e & st' & -> & Hfr); by eexists _, _, _].
  unfold ret. by rewrite !app_nil_r.
Qed.

Lemma frame_set_all_cons c s cols t :
  frame_set_all ((c, s) :: cols) t = frame_set_all cols (frame_set c s t).
Proof. reflexivity. Qed.

Lemma frame_get_set_all (c : string) cols t :
  c ∉ map fst cols → frame_get c (frame_set_all cols t) = frame_get c t.
Proof.
  revert t. induction cols as [|[n s] cols IH]; intros t Hc; [done|].
  simpl in Hc. apply not_elem_of_cons in Hc as [Hn Hc].
  rewrite frame_set_all_cons, IH, frame_get_set by done.
  by rewrite decide_False.
Qed.

Lemma filter_fresh_name (c : string) (N C : list string) :
  c ∉ C → filter (λ x, x ∉ N ++ [c]) C = filter (λ x, x ∉ N) C.
Proof.
  induction C as [|x C IH]; intros Hc; [done|].
  apply not_elem_of_cons in Hc as [Hx Hc].
  rewrite !filter_cons, IH by done.
  destruct (decide (x ∉ N ++ [c])) as [H1|H1], (decide (x ∉ N)) as [H2|H2];
    try done; exfalso.
  - apply H2. intros Hin. apply H1, elem_of_app. by left.
  - apply H1. intros [Hin|Hin%list_elem_of_singleton]%elem_of_app; done.
Qed.

Lemma frame_set_all_names cols t :
  NoDup (map fst cols) →
  map fst (frame_set_all cols t)
  = map fst t ++ filter (λ c, c ∉ map fst t) (map fst cols).
Proof.
  revert t. induction cols as [|[c s] cols IH]; intros t Hnd.
  - simpl. by rewrite filter_nil, app_nil_r.
  - simpl in Hnd. apply NoDup_cons in Hnd as [Hc Hnd].
    rewrite frame_set_all_cons, IH, frame_set_names by done. simpl.
    destruct (decide (c ∈ map fst t)) as [Hin|Hin].
    + rewrite app_nil_r, filter_cons_False; [done|]. by intros ?.
    + rewrite filter_cons_True, filter_fresh_name by done.
      by rewrite <- app_assoc.
Qed.

Lemma frame_set_all_rows (n : nat) cols t :
  Forall (λ c, series_len c.2 = n) cols →
  has_rows n t → has_rows n (frame_set_all cols t).
Proof.
  revert t. induction cols as [|[c s] cols IH]; intros t Hcols Ht; [done|].
  apply Forall_cons in Hcols as [Hs Hcols].
  rewrite frame_set_all_cons. apply IH; [done|]. by apply frame_set_rows.
Qed.

Lemma fresh_frame_ne (st : state) (df : loc) (t : DataFrame) :
  frames st !! df = Some t → fresh (dom (frames st)) ≠ df.
Proof.
  intros Hdf Heq. apply (is_fresh (dom (frames st))). rewrite Heq.
  apply elem_of_dom. by exists t.
Qed.

Lemma features_names (t : DataFrame) cols :
  features t = Some cols → map fst cols = derived_names.
Proof.
  unfold features. intros H.
  repeat (match type of H with
          | (?o ≫= _) = Some _ => destruct o; simpl in H; [|done]
          end).
  by injection H as <-.
Qed.

Lemma has_rows_column (n : nat) (c : string) (v : list string) (t : DataFrame) :
  has_rows n t → str_column c t = Some v → length v = n.
Proof.
  unfold has_rows, str_column. induction t as [|[c' s] t IH]; simpl; [done|].
  intros [Hs Ht]%Forall_cons. case_decide; [|by apply IH].
  destruct s; [|done..]. by intros [= <-].
Qed.

Lemma features_rows (n : nat) (t : DataFrame) cols :
  has_rows n t → features t = Some cols → Forall (λ c, series_len c.2 = n) cols.
Proof.
  unfold features. intros Ht H.
  destruct (str_column "animal_type" t) as [a|] eqn:Ha; simpl in H; [|done].
  destruct (str_column "name" t) as [nm|] eqn:Hn; simpl in H; [|done].
  destruct (str_column "sex_upon_outcome" t) as [x|] eqn:Hx; simpl in H; [|done].
  destruct (str_column "breed" t) as [b|] eqn:Hb; simpl in H; [|done].
  destruct (str_column "age_upon_outcome" t) as [g|] eqn:Hg; simpl in H; [|done].
  destruct (mapM days_of g) as [days|] eqn:Hd; simpl in H; [|done].
  injection H as <-. apply length_mapM in Hd.
  repeat constructor; simpl; rewrite ?length_map;
    try (by eapply has_rows_column); rewrite <- Hd; by eapply has_rows_column.
Qed.

Lemma frame_get_set_all_in (c : string) (s : Series) cols t :
  NoDup (map fst cols) → (c, s) ∈ cols →
  frame_get c (frame_set_all cols t) = Some s.
Proof.
  revert t. induction cols as [|[c' s'] cols IH]; intros t Hnd Hin.
  - by apply elem_of_nil in Hin.
  - simpl in Hnd. apply NoDup_cons in Hnd as [Hc Hnd].
    rewrite frame_set_all_cons.
    apply elem_of_cons in Hin as [[= <- <-] | Hin]; [|by apply IH].
    rewrite frame_get_set_all, frame_get_set by done. by rewrite decide_True.
Qed.

Lemma frame_set_all_same cols t :
  (∀ c s, (c, s) ∈ cols → frame_get c t = Some s) → frame_set_all cols t = t.
Proof.
  induction cols as [|[c s] cols IH]; intros Hcols; [done|].
  rewrite frame_set_all_cons, frame_set_same; [|apply Hcols; by left].
  apply IH. intros c' s' Hin. apply Hcols. by right.
Qed.

Lemma derived_names_NoDup : NoDup derived_names.
Proof. apply (bool_decide_unpack _). by vm_compute. Qed.

Lemma str_column_set_all (c : string) cols t :
  c ∉ map fst cols → str_column c (frame_set_all cols t) = str_column c t.
Proof. intros Hc. unfold str_column. by rewrite frame_get_set_all. Qed.

Lemma features_set_all cols t :
  map fst cols = derived_names → features (frame_set_all cols t) = features t.
Proof.
  intros Hn. unfold features.
  rewrite !str_column_set_all; [done|rewrite Hn..];
    apply (bool_decide_unpack _); by vm_compute.
Qed.

Lemma features_rowwise (t : DataFrame) cols :
  features t = Some cols → derived_rowwise t (frame_set_all cols t).
Proof.
  intros H. pose proof (features_names t cols H) as Hn.
  pose proof derived_names_NoDup as Hnd. rewrite <- Hn in Hnd.
  unfold features in H. unfold derived_rowwise.
  destruct (str_column "animal_type" t) as [a|]; simpl in H; [|done].
  destruct (str_column "name" t) as [nm|]; simpl in H; [|done].
  destruct (str_column "sex_upon_outcome" t) as [x|]; simpl in H; [|done].
  destruct (str_column "breed" t) as [b|]; simpl in H; [|done].
  destruct (str_column "age_upon_outcome" t) as [g|]; simpl in H; [|done].
  destruct (mapM days_of g) as [days|] eqn:Hd; simpl in H; [|done].
  injection H as <-. exists a, nm, x, b, g, days.
  apply mapM_Some in Hd.
  repeat (split; [done|]).
  repeat split; apply frame_get_set_all_in; try done;
    rewrite !elem_of_cons; tauto.
Qed.

(** The successful runs of [add_features]. *)
Lemma add_features_inv (st : state) (df : loc) (t : DataFrame) r st' :
  frames st !! df = Some t →
  add_features df st = (inr r, st') →
  ∃ cols, features t = Some cols ∧
          r = fresh (dom (frames st)) ∧
          st' = State (<[r := frame_set_all cols t]> (frames st))
                      (log st ++ features_log t).
Proof.
  intros Hdf Hrun. pose proof (add_features_run st df t Hdf) as H.
  simpl in H. destruct (features t) as [cols|].
  - rewrite Hrun in H. injection H as -> ->. by exists cols.
  - destruct H as (e & st1 & tp & H & _). congruence.
Qed.

(** C7, as the code has it: whatever [add_features] does, with a result or
    with an exception, the frame it was given is afterwards what it was; and
    when it returns, it returns a new frame, every other frame of the store
    is what it was, every column of the given frame whose name is not one of
    the six derived names is in the new frame unchanged, the six derived
    columns are there, each holding row by row what its rule leaves, and the
    names of the new frame are the given names followed by those derived
    names that were not among them (a given column that bears a derived name
    is overwritten where it stands). *)
Theorem add_features_frame (st : state) (df : loc) (t : DataFrame) res st' :
  frames st !! df = Some t →
  add_features df st = (res, st') →
  frames st' !! df = Some t ∧
  ∀ r, res = inr r →
    r ≠ df ∧
    (∀ k, k ≠ r → frames st' !! k = frames st !! k) ∧
    ∃ t', frames st' !! r = Some t' ∧
          (∀ c, c ∉ derived_names → frame_get c t' = frame_get c t) ∧
          (∀ c, c ∈ derived_names → is_Some (frame_get c t')) ∧
          derived_rowwise t t' ∧
          map fst t' = map fst t ++ filter (λ c, c ∉ map fst t) derived_names.
Proof.
  intros Hdf Hrun. pose proof (fresh_frame_ne st df t Hdf) as Hne.
  split.
  - pose proof (add_features_run st df t Hdf) as H. simpl in H.
    destruct (features t) as [cols|].
    + rewrite Hrun in H. injection H as _ ->. simpl.
      by rewrite lookup_insert_ne.
    + destruct H as (e & st1 & tp & H & Hfr). rewrite Hrun in H.
      injection H as _ <-. by rewrite Hfr, lookup_insert_ne.
  - intros r ->.
    destruct (add_features_inv st df t r st' Hdf Hrun) as (cols & Hc & -> & ->).
    pose proof (features_names t cols Hc) as Hn.
    pose proof derived_names_NoDup as Hnd. rewrite <- Hn in Hnd.
    split; [done|]. simpl. split; [intros k Hk; by rewrite lookup_insert_ne|].
    exists (frame_set_all cols t). split; [by rewrite lookup_insert_eq|].
    split; [intros c Hcn; apply frame_get_set_all; by rewrite Hn|].
    split; [|split; [by apply features_rowwise
                    |rewrite <- Hn; by apply frame_set_all_names]].
    intros c Hin. rewrite <- Hn in Hin.
    apply list_elem_of_fmap in Hin as ([c' s] & -> & Hin). simpl.
    exists s. by apply frame_get_set_all_in.
Qed.

Lemma add_features_frame_witness :
  frames (store_of frame_loaded) !! 0%nat = Some frame_loaded ∧
  fst (add_features 0%nat (store_of frame_loaded)) = inr 1%nat ∧
  frames (snd (add_features 0%nat (store_of frame_loaded))) !! 0%nat
  = Some frame_loaded.
Proof.
  split; [by vm_compute|]. split; [by vm_compute|].
  apply (add_features_frame (store_of frame_loaded) 0%nat frame_loaded
           (fst (add_features 0%nat (store_of frame_loaded)))
           (snd (add_features 0%nat (store_of frame_loaded)))).
  - by vm_compute.
  - by destruct (add_features 0%nat (store_of frame_loaded)).
Defined.

(** C7, as the specification words it, fails on a frame that already has a
    column called sex: [add_features] returns, and the column of the result
    is not the column it was given. *)
Lemma add_features_overwrites_sex :
  add_features 0%nat (store_of frame_with_sex)
  = (inr 1%nat,
     State (<[1%nat := frame_with_sex_result]> {[ 0%nat := frame_with_sex ]}) []) ∧
  frame_get "sex" frame_with_sex = Some (StrCol ["M"]) ∧
  frame_get "sex" frame_with_sex_result = Some (StrCol ["male"]) ∧
  map fst frame_with_sex_result ≠ map fst frame_with_sex ++ derived_names ∧
  ¬ keeps_all_columns frame_with_sex frame_with_sex_result.
Proof.
  split; [by vm_compute|]. split; [by vm_compute|]. split; [by vm_compute|].
  split; [by vm_compute|].
  intros [Hkeep _].
  specialize (Hkeep "sex" (StrCol ["M"]) eq_refl). by vm_compute in Hkeep.
Qed.

(** C8: when [add_features] returns, the frame it returns has the rows of
    the frame it was given: every column has as many rows as before, every
    column whose name is not a derived name is unchanged, and every derived
    column holds in each row what its rule leaves for the same row of the
    column it is derived from.  Applied to that frame again, [add_features]
    returns a frame equal to it, so with the same six derived columns. *)
Theorem add_features_twice (st : state) (df : loc) (t : DataFrame) r st' :
  frames st !! df = Some t →
  add_features df st = (inr r, st') →
  ∃ t', frames st' !! r = Some t' ∧
        (∀ n, has_rows n t → has_rows n t') ∧
        (∀ c, c ∉ derived_names → frame_get c t' = frame_get c t) ∧
        derived_rowwise t t' ∧
        ∃ r2 st2, add_features r st' = (inr r2, st2) ∧
                  frames st2 !! r2 = Some t'.
Proof.
  intros Hdf Hrun.
  destruct (add_features_inv st df t r st' Hdf Hrun) as (cols & Hc & Hr & ->).
  pose proof (features_names t cols Hc) as Hn.
  pose proof derived_names_NoDup as Hnd. rewrite <- Hn in Hnd.
  exists (frame_set_all cols t). simpl.
  split; [by rewrite lookup_insert_eq|].
  split; [intros n Ht; apply frame_set_all_rows; [by eapply features_rows|done]|].
  split; [intros c Hcn; apply frame_get_set_all; by rewrite Hn|].
  split; [by apply features_rowwise|].
  set (st1 := State (<[r := frame_set_all cols t]> (frames st))
                    (log st ++ features_log t)).
  assert (H1 : frames st1 !! r = Some (frame_set_all cols t))
    by apply lookup_insert_eq.
  pose proof (add_features_run st1 r _ H1) as H2. simpl in H2.
  rewrite (features_set_all cols t Hn), Hc in H2.
  eexists _, _. split; [exact H2|]. simpl. rewrite lookup_insert_eq.
  f_equal. apply frame_set_all_same. intros c s Hin.
  by apply frame_get_set_all_in.
Qed.

Lemma add_features_twice_witness :
  ∃ t', frames (snd (add_features 0%nat (store_of frame_loaded))) !! 1%nat
        = Some t' ∧
        has_rows 3 t' ∧
        ∃ r2 st2,
          add_features 1%nat (snd (add_features 0%nat (store_of frame_loaded)))
          = (inr r2, st2) ∧
          frames st2 !! r2 = Some t'.
Proof.
  assert (H0 : frames (store_of frame_loaded) !! 0%nat = Some frame_loaded)
    by (by vm_compute).
  assert (H1 : add_features 0%nat (store_of frame_loaded)
               = (inr 1%nat, snd (add_features 0%nat (store_of frame_loaded))))
    by (by vm_compute).
  destruct (add_features_twice _ _ _ _ _ H0 H1) as (t' & Ht' & Hrows & _ & _ & H2).
  exists t'. split; [exact Ht'|]. split; [|exact H2].
  apply Hrows. unfold has_rows, frame_loaded. by repeat constructor.
Defined.

(** * Further properties *)

(** ** Names, and the report of [check_is_dog] *)

(** X1: on every series of strings [check_has_name] returns a series of the
    same rows and leaves the state, the log included, as it was; a row is
    false exactly when the lowered name is the word unknown, whatever the
    capitals of the stored name. *)
Theorem check_has_name_spec (v : list string) (st : state) :
  ∃ out, check_has_name (StrCol v) st = (inr (BoolCol out), st) ∧
         Forall2 (λ s (b : bool), b = false ↔ lower s = "unknown") v out.
Proof.
  exists (map has_name_of v). split; [apply check_has_name_rows|].
  apply Forall2_fmap_r, Forall_Forall2_diag, Forall_forall.
  intros s _. unfold has_name_of, compose. rewrite bool_decide_eq_false.
  split; [apply dec_stable | by intros ? ?].
Qed.

Lemma isin_cat_or_dog (s : string) :
  bool_decide (lower s ∈ ["dog"; "cat"]) = cat_or_dog s.
Proof.
  unfold cat_or_dog. rewrite <- bool_decide_or. apply bool_decide_ext.
  rewrite !elem_of_cons, elem_of_nil. tauto.
Qed.

Lemma anomalies_filter (v : list string) :
  anomalies v =
  if forallb cat_or_dog v then []
  else [StrCol (List.filter (λ s, negb (cat_or_dog s)) v)].
Proof.
  unfold anomalies, isin. rewrite !map_map.
  assert (H1 : forallb id (map (λ x, bool_decide (lower x ∈ ["dog"; "cat"])) v)
               = forallb cat_or_dog v).
  { induction v as [|s v IH]; [done|]. simpl. by rewrite IH, isin_cat_or_dog. }
  assert (H2 : mask_select
                 (map (λ x, negb (bool_decide (lower x ∈ ["dog"; "cat"]))) v) v
               = List.filter (λ s, negb (cat_or_dog s)) v).
  { clear H1. induction v as [|s v IH]; [done|]. simpl. rewrite isin_cat_or_dog.
    destruct (cat_or_dog s); simpl; by rewrite IH. }
  by rewrite H1, H2.
Qed.

(** X2: [check_is_dog] writes to the log only when some animal type is
    neither dog nor cat once lowered; it then writes one record, which holds
    exactly those animal types, as stored and in row order.  The frames are
    never touched, and the result does not depend on the report. *)
Theorem check_is_dog_report (v : list string) (st : state) :
  check_is_dog (StrCol v) st
  = (inr (BoolCol (map is_dog_of v)),
     if forallb cat_or_dog v then st
     else State (frames st)
                (log st ++ [StrCol (List.filter (λ s, negb (cat_or_dog s)) v)])).
Proof.
  rewrite check_is_dog_rows, anomalies_filter.
  destruct (forallb cat_or_dog v); [|done]. by rewrite state_log_nil.
Qed.

(** X3: each of the six rules raises [AttributeError] on a series that does
    not hold strings (booleans, floats, timestamps), before it computes or
    logs anything: the state is left as it was. *)
Theorem rules_need_strings (c : Series) (st : state) :
  not_strings c →
  check_is_dog c st = (inl AttributeError, st) ∧
  check_has_name c st = (inl AttributeError, st) ∧
  get_sex c st = (inl AttributeError, st) ∧
  get_neutered c st = (inl AttributeError, st) ∧
  get_hair_type c st = (inl AttributeError, st) ∧
  compute_days_upon_outcome c st = (inl AttributeError, st).
Proof. destruct c; [done|..]; intros _; by repeat split. Qed.

Lemma rules_need_strings_witness :
  not_strings (BoolCol [true; false]) ∧
  get_sex (BoolCol [true; false]) (State ∅ []) = (inl AttributeError, State ∅ []).
Proof.
  split; [exact I|].
  apply (rules_need_strings (BoolCol [true; false]) (State ∅ [])). exact I.
Defined.

(** ** Capitals *)

Lemma map_lower_ext {A} (f : string → A) (v w : list string) :
  (∀ s s', lower s = lower s' → f s = f s') →
  map lower v = map lower w → map f v = map f w.
Proof.
  intros Hf. revert w. induction v as [|s v IH]; intros [|s' w]; simpl; try done.
  intros [= Hs Hv]. f_equal; [by apply Hf | by apply IH].
Qed.

Lemma mask_select_map {A B} (f : A → B) (mask : list bool) (l : list A) :
  map f (mask_select mask l) = mask_select mask (map f l).
Proof.
  revert l. induction mask as [|b mask IH]; intros [|x l]; simpl; try done.
  destruct b; simpl; by rewrite IH.
Qed.

Lemma anomalies_lower (v w : list string) :
  map lower v = map lower w →
  map series_lower (anomalies v) = map series_lower (anomalies w).
Proof.
  intros Hvw. unfold anomalies. rewrite Hvw.
  destruct (forallb id (isin ["dog"; "cat"] (map lower w))); [done|].
  simpl. by rewrite !mask_select_map, Hvw.
Qed.

(** X4: the four rules that lower their column first give the same series
    for any two columns that are equal up to capitals, and leave the same
    state; [check_is_dog] leaves the frames as they were and logs as many
    records for the one column as for the other, equal up to capitals. *)
Theorem rules_ignore_capitals (v w : list string) (st : state) :
  map lower v = map lower w →
  fst (check_is_dog (StrCol v) st) = fst (check_is_dog (StrCol w) st) ∧
  frames (snd (check_is_dog (StrCol v) st)) = frames st ∧
  frames (snd (check_is_dog (StrCol w) st)) = frames st ∧
  map series_lower (log (snd (check_is_dog (StrCol v) st)))
  = map series_lower (log (snd (check_is_dog (StrCol w) st))) ∧
  check_has_name (StrCol v) st = check_has_name (StrCol w) st ∧
  get_neutered (StrCol v) st = get_neutered (StrCol w) st ∧
  get_hair_type (StrCol v) st = get_hair_type (StrCol w) st.
Proof.
  intros Hvw.
  rewrite !check_is_dog_rows, !check_has_name_rows, !get_neutered_rows,
    !get_hair_type_rows. simpl.
  rewrite !map_app, (anomalies_lower v w Hvw).
  rewrite (map_lower_ext is_dog_of v w), (map_lower_ext has_name_of v w),
    (map_lower_ext neutered_of v w), (map_lower_ext hair_of v w); try done.
  - intros s s' Hs. unfold hair_of. by rewrite Hs.
  - intros s s' Hs. unfold neutered_of. by rewrite Hs.
  - intros s s' Hs. unfold has_name_of. by rewrite Hs.
  - intros s s' Hs. unfold is_dog_of. by rewrite Hs.
Qed.

Lemma rules_ignore_capitals_witness :
  map lower ["Intact Male"; "SPAYED female"] = map lower ["intact male"; "Spayed Female"] ∧
  get_neutered (StrCol ["Intact Male"; "SPAYED female"]) (State ∅ [])
  = get_neutered (StrCol ["intact male"; "Spayed Female"]) (State ∅ []).
Proof.
  split; [reflexivity|].
  apply (rules_ignore_capitals ["Intact Male"; "SPAYED female"]
           ["intact male"; "Spayed Female"] (State ∅ [])).
  reflexivity.
Defined.

Lemma char_lower_not_capital (c0 : ascii) :
  is_upper_az c0 = true → ∀ c, char_lower c ≠ c0.
Proof.
  intros H0 c Hc. rewrite <- Hc in H0.
  assert (is_upper_az (char_lower c) = false) by by_char c. congruence.
Qed.

Lemma endswith_lower_capital (s : string) (c0 : ascii) (rest : string) :
  is_upper_az c0 = true → endswith (lower s) (String c0 rest) = false.
Proof.
  intros H0. induction s as [|c s IH]; [done|].
  simpl. rewrite IH, orb_false_r. apply bool_decide_eq_false.
  intros [= Hc _]. by apply (char_lower_not_capital c0 H0 c).
Qed.

(** X5: [get_sex] reads capitals: on a column that has been lowered every
    row is unknown, a lowered value ending in male or female included. *)
Theorem get_sex_lowered (v : list string) (st : state) :
  get_sex (StrCol (map lower v)) st
  = (inr (StrCol (map (λ _, "unknown") v)), st).
Proof.
  rewrite get_sex_rows, map_map. do 3 f_equal. apply map_ext. intros s.
  unfold sex_of. by rewrite !endswith_lower_capital.
Qed.

(** ** The exceptions of [compute_days_upon_outcome] *)

Lemma apply_pure_inr {A B} (g : A → exn + B) (l : list A) (ys : list B) :
  apply_pure g l = inr ys → Forall2 (λ x y, g x = inr y) l ys.
Proof.
  revert ys. induction l as [|x l IH]; intros ys; simpl.
  - intros [= <-]. constructor.
  - destruct (g x) as [|y] eqn:Hx; [done|].
    destruct (apply_pure g l) as [|ys']; [done|].
    intros [= <-]. constructor; [done | by apply IH].
Qed.

Lemma apply_pure_inl {A B} (g : A → exn + B) (l : list A) (e : exn) :
  apply_pure g l = inl e → ∃ x, x ∈ l ∧ g x = inl e.
Proof.
  induction l as [|x l IH]; simpl; [done|].
  destruct (g x) as [e'|y] eqn:Hx.
  - intros [= <-]. exists x. split; [by left | done].
  - destruct (apply_pure g l) as [e'|ys']; [|done].
    intros [= <-]. destruct (IH eq_refl) as (x' & Hin & Hx').
    exists x'. split; [by right | done].
Qed.

Lemma time_of_raises (x : list string) (e : exn) :
  pure_result (time_of x) = inl e → x = [] ∧ e = IndexError.
Proof.
  unfold pure_result, time_of, bind, list_getitem, ret, raise.
  destruct x as [|x0 rest]; simpl; [by intros [= <-]|]. by case_bool_decide.
Qed.

Lemma period_of_raises (x : list string) (e : exn) :
  pure_result (period_of x) = inl e →
  (x = [] ∨ ∃ m, x = [m] ∧ m ≠ "Unknown") ∧ e = IndexError.
Proof.
  unfold pure_result, period_of, bind, list_getitem, ret, raise.
  destruct x as [|x0 [|u rest]]; simpl.
  - intros [= <-]. split; [by left | done].
  - case_bool_decide as Hx; [|done]. intros [= <-].
    split; [right; by exists x0 | done].
  - by case_bool_decide.
Qed.

Lemma period_of_returns (x : list string) (p : option string) :
  pure_result (period_of x) = inr p →
  ¬ (x = [] ∨ ∃ m, x = [m] ∧ m ≠ "Unknown").
Proof.
  unfold pure_result, period_of, bind, list_getitem, ret, raise.
  destruct x as [|x0 [|u rest]]; simpl; [done|..].
  - case_bool_decide as Hx; [done|]. by intros _ [[=] | (m & [= <-] & Hm)].
  - intros _ [[=] | (m & [=] & _)].
Qed.

Lemma time_of_magnitude (x : list string) (m : string) :
  pure_result (time_of x) = inr (inl m) → ∃ rest, x = m :: rest ∧ m ≠ "Unknown".
Proof.
  unfold pure_result, time_of, bind, list_getitem, ret, raise.
  destruct x as [|x0 rest]; simpl; [done|].
  case_bool_decide as Hx; [|done]. intros [= <-]. by exists rest.
Qed.

Lemma astype_float_raises (t : string + float64) (e : exn) :
  pure_result (astype_float t) = inl e →
  ∃ m, t = inl m ∧ py_float m = None ∧ e = ValueError m.
Proof.
  unfold pure_result, astype_float, ret, raise.
  destruct t as [m|f]; [|done]. simpl.
  destruct (py_float m) eqn:Hm; [done|]. intros [= <-]. by exists m.
Qed.

(** X6: the outcome of [compute_days_upon_outcome] on a series of strings
    is one of three.  Every age has the magnitude Unknown or a magnitude
    that [float] reads and a unit token, and it returns.  Or some age has no
    token, or a lone token that is not Unknown, and it raises [IndexError],
    wherever that age stands and whatever the other ages are.  Or no age is
    like that, and it raises [ValueError] for a magnitude of the series that
    [float] does not read. *)
Theorem compute_days_outcomes (v : list string) (st : state) :
  (Forall age_ok v ∧
   ∃ out, compute_days_upon_outcome (StrCol v) st = (inr (FloatCol out), st)) ∨
  (Exists short_age v ∧
   compute_days_upon_outcome (StrCol v) st = (inl IndexError, st)) ∨
  (Forall (λ s, ¬ short_age s) v ∧
   ∃ s m, s ∈ v ∧ bad_magnitude s m ∧
          compute_days_upon_outcome (StrCol v) st = (inl (ValueError m), st)).
Proof.
  rewrite compute_days_pure.
  destruct (apply_pure (λ x, pure_result (time_of x)) (map split v))
    as [e|time] eqn:HT.
  { right. left. apply apply_pure_inl in HT as (x & Hin & Hx).
    apply time_of_raises in Hx as [-> ->].
    apply list_elem_of_fmap in Hin as (s & Hs & Hin).
    split; [|done]. apply Exists_exists. exists s. split; [done|]. by left. }
  destruct (apply_pure (λ x, pure_result (period_of x)) (map split v))
    as [e|period] eqn:HP.
  { right. left. apply apply_pure_inl in HP as (x & Hin & Hx).
    apply period_of_raises in Hx as [Hx ->].
    apply list_elem_of_fmap in Hin as (s & -> & Hin).
    split; [|done]. apply Exists_exists. by exists s. }
  destruct (apply_pure (λ t, pure_result (astype_float t)) time)
    as [e|tf] eqn:HF.
  - right. right. split.
    + apply apply_pure_inr, Forall2_fmap_l in HP.
      apply Forall_forall. intros s Hin.
      apply list_elem_of_lookup in Hin as [i Hi].
      destruct (Forall2_lookup_l _ _ _ _ _ HP Hi) as (p & _ & Hp).
      by apply period_of_returns in Hp.
    + apply apply_pure_inl in HF as (t & Hin & Ht).
      apply astype_float_raises in Ht as (m & -> & Hm & ->).
      apply apply_pure_inr, Forall2_fmap_l in HT.
      apply list_elem_of_lookup in Hin as [i Hi].
      destruct (Forall2_lookup_r _ _ _ _ _ HT Hi) as (s & Hs & Hsm).
      apply time_of_magnitude in Hsm as (rest & Hsplit & Hne).
      exists s, m. split; [by eapply list_elem_of_lookup_2|].
      split; [by exists rest | done].
  - left. pose proof (rows_of_stages _ _ _ _ HT HP HF) as Hrows.
    split; [|by eexists].
    apply Forall_forall. intros s Hin. apply age_ok_days_of.
    apply list_elem_of_lookup in Hin as [i Hi].
    destruct (Forall2_lookup_l _ _ _ _ _ Hrows Hi) as (y & _ & Hy). by exists y.
Qed.

Lemma take2_time_of (x : list string) :
  pure_result (time_of (take 2 x)) = pure_result (time_of x).
Proof. by destruct x as [|a [|b rest]]. Qed.

Lemma take2_period_of (x : list string) :
  pure_result (period_of (take 2 x)) = pure_result (period_of x).
Proof. by destruct x as [|a [|b rest]]. Qed.

Lemma apply_pure_take2 {B} (g : list string → exn + B) (l : list (list string)) :
  (∀ x, g (take 2 x) = g x) → apply_pure g (map (take 2) l) = apply_pure g l.
Proof.
  intros Hg. induction l as [|x l IH]; [done|]. simpl. by rewrite Hg, IH.
Qed.

(** X7: [compute_days_upon_outcome] reads the first two tokens of an age
    and nothing else: two series whose ages have the same first two tokens
    row by row give the same result, or the same exception.  Whitespace
    around and between the tokens, and any token after the unit, do not
    count. *)
Theorem compute_days_two_tokens (v w : list string) (st : state) :
  map (λ s, take 2 (split s)) v = map (λ s, take 2 (split s)) w →
  compute_days_upon_outcome (StrCol v) st = compute_days_upon_outcome (StrCol w) st.
Proof.
  intros Hvw. rewrite !compute_days_pure.
  rewrite <- (apply_pure_take2 _ (map split v) take2_time_of),
          <- (apply_pure_take2 _ (map split w) take2_time_of),
          <- (apply_pure_take2 _ (map split v) take2_period_of),
          <- (apply_pure_take2 _ (map split w) take2_period_of).
  rewrite !map_map. by rewrite Hvw.
Qed.

Lemma compute_days_two_tokens_witness :
  map (λ s, take 2 (split s)) ["2 years old"; "Unknown"]
  = map (λ s, take 2 (split s)) ["  2   years "; " Unknown"] ∧
  compute_days_upon_outcome (StrCol ["2 years old"; "Unknown"]) (State ∅ [])
  = compute_days_upon_outcome (StrCol ["  2   years "; " Unknown"]) (State ∅ []).
Proof.
  split; [reflexivity|].
  apply (compute_days_two_tokens ["2 years old"; "Unknown"]
           ["  2   years "; " Unknown"] (State ∅ [])).
  reflexivity.
Defined.

(** ** Renaming *)

Lemma upper_not_underscore (c : ascii) : is_upper_az c = true → c ≠ "_"%char.
Proof. by_char c. Qed.

Lemma lower_not_underscore (c : ascii) : is_lower_az c = true → c ≠ "_"%char.
Proof. by_char c. Qed.

Lemma erase_cons (c : ascii) (x y : string) :
  erase_underscores x = erase_underscores y →
  erase_underscores (String c x) = erase_underscores (String c y).
Proof. intros H. simpl. by rewrite H. Qed.

Lemma erase_sub_upper_lower (n : nat) : ∀ s b,
  (String.length s ≤ n)%nat →
  erase_underscores (sub_upper_lower b s) = erase_underscores s.
Proof.
  induction n as [|n IH]; intros s b Hn.
  - destruct s; [done | simpl in Hn; lia].
  - destruct s as [|c s]; [done|]. simpl in Hn.
    assert (Hrec : ∀ b', erase_underscores (sub_upper_lower b' s)
                         = erase_underscores s) by (intros; apply IH; lia).
    cbn [sub_upper_lower].
    destruct (b && is_lower_az c); [apply erase_cons, Hrec|].
    destruct s as [|u [|l s]]; [done | apply erase_cons, Hrec |].
    destruct (negb (bool_decide (c = "010"%char)) && is_upper_az u && is_lower_az l)
      eqn:Hm; [|apply erase_cons, Hrec].
    apply andb_true_iff in Hm as [[_ Hu]%andb_true_iff Hl].
    apply upper_not_underscore in Hu. apply lower_not_underscore in Hl.
    simpl in Hn. apply erase_cons. cbn [erase_underscores].
    rewrite (decide_True (P := "_"%char = "_"%char)) by done.
    rewrite !(decide_False (P := u = "_"%char)), !(decide_False (P := l = "_"%char))
      by done.
    rewrite (IH s true) by lia. done.
Qed.

Lemma erase_sub_lower_upper (n : nat) : ∀ s,
  (String.length s ≤ n)%nat →
  erase_underscores (sub_lower_upper s) = erase_underscores s.
Proof.
  induction n as [|n IH]; intros s Hn.
  - destruct s; [done | simpl in Hn; lia].
  - destruct s as [|c s]; [done|]. simpl in Hn.
    assert (Hrec : erase_underscores (sub_lower_upper s) = erase_underscores s)
      by (apply IH; lia).
    cbn [sub_lower_upper]. destruct s as [|u s]; [done|].
    destruct (is_lower_az_digit c && is_upper_az u) eqn:Hm;
      [|apply erase_cons, Hrec].
    apply andb_true_iff in Hm as [_ Hu]. apply upper_not_underscore in Hu.
    simpl in Hn. apply erase_cons. cbn [erase_underscores].
    rewrite (decide_True (P := "_"%char = "_"%char)) by done.
    rewrite !(decide_False (P := u = "_"%char)) by done.
    rewrite (IH s) by lia. done.
Qed.

Lemma small_u_replace_upon (s : string) : ∀ k,
  small_u (replace_go k s "upon" "Upon") = small_u (string_drop k s).
Proof.
  induction s as [|c s IH]; intros k; [by destruct k|].
  destruct k as [|k]; [|apply IH].
  cbn [replace_go string_drop].
  destruct (startswith (String c s) "upon") eqn:Hm.
  - apply startswith_spec in Hm as [q Hq]. norm_append.
    injection Hq as -> ->. cbn [small_u]. rewrite IH. done.
  - cbn [small_u]. by rewrite IH.
Qed.

(** X8: the renaming of [load_data] only inserts underscores and changes
    the case of letters.  For every column name, [convert_camel_case]
    returns the lowering of a string that, without its underscores, is the
    name without its underscores: the two substitutions lose, add and move
    no other character.  The rewriting of [upon] only makes small u capital.
    The whole renaming is [convert_camel_case] of the rewritten name, and
    what it returns is in lower case. *)
Theorem rename_column_letters (name : string) :
  (∃ s, convert_camel_case name = lower s ∧
        erase_underscores s = erase_underscores name) ∧
  small_u (replace name "upon" "Upon") = small_u name ∧
  (∃ s, rename_column name = lower s ∧
        erase_underscores s = erase_underscores (replace name "upon" "Upon")) ∧
  lower (convert_camel_case name) = convert_camel_case name ∧
  lower (rename_column name) = rename_column name.
Proof.
  assert (Hconv : ∀ n, ∃ s, convert_camel_case n = lower s ∧
                            erase_underscores s = erase_underscores n).
  { intros n. exists (sub_lower_upper (sub_upper_lower false n)).
    split; [done|].
    by rewrite (erase_sub_lower_upper _ _ (Nat.le_refl _)),
      (erase_sub_upper_lower _ _ _ (Nat.le_refl _)). }
  split; [apply Hconv|]. split; [apply small_u_replace_upon|].
  split; [apply Hconv|].
  split; unfold rename_column, convert_camel_case; apply lower_idemp.
Qed.

(** ** The outcomes of [add_features] *)

Lemma features_consumable (t : DataFrame) : is_Some (features t) ↔ consumable t.
Proof.
  unfold features, consumable. split.
  - intros [cols H].
    destruct (str_column "animal_type" t) as [a|]; simpl in H; [|done].
    destruct (str_column "name" t) as [n|]; simpl in H; [|done].
    destruct (str_column "sex_upon_outcome" t) as [x|]; simpl in H; [|done].
    destruct (str_column "breed" t) as [b|]; simpl in H; [|done].
    destruct (str_column "age_upon_outcome" t) as [g|]; simpl in H; [|done].
    destruct (mapM days_of g) as [days|] eqn:Hd; simpl in H; [|done].
    exists a, n, x, b, g. repeat (split; [done|]).
    assert (Hsome : is_Some (mapM days_of g)) by by exists days.
    apply mapM_is_Some in Hsome.
    eapply Forall_impl; [exact Hsome|]. intros s Hs. by apply age_ok_days_of.
  - intros (a & n & x & b & g & -> & -> & -> & -> & -> & Hg). simpl.
    assert (Hsome : is_Some (mapM days_of g)).
    { apply mapM_is_Some. eapply Forall_impl; [exact Hg|].
      intros s Hs. by apply age_ok_days_of. }
    destruct Hsome as [days ->]. by eexists.
Qed.



(** X10: when [add_features] returns, what it has added to the log is what
    [check_is_dog] reports for the animal types of the frame: nothing when
    every animal type is dog or cat once lowered, and otherwise one record
    with the other animal types, as stored and in row order.  No other rule
    logs. *)
Theorem add_features_logs (st : state) (df : loc) (t : DataFrame) r st' :
  frames st !! df = Some t →
  add_features df st = (inr r, st') →
  ∃ a, str_column "animal_type" t = Some a ∧
       log st' = log st ++
         (if forallb cat_or_dog a then []
          else [StrCol (List.filter (λ s, negb (cat_or_dog s)) a)]).
Proof.
  intros Hdf Hrun.
  destruct (add_features_inv st df t r st' Hdf Hrun) as (cols & Hc & _ & ->).
  assert (Hsome : is_Some (features t)) by by exists cols.
  apply features_consumable in Hsome as (a & ? & ? & ? & ? & Ha & _).
  exists a. split; [done|]. simpl. unfold features_log.
  by rewrite Ha, anomalies_filter.
Qed.

Lemma add_features_logs_witness :
  ∃ a, str_column "animal_type" frame_loaded = Some a ∧
       log (snd (add_features 0%nat (store_of frame_loaded)))
       = [] ++ [StrCol ["Bird"]].
Proof.
  assert (H0 : frames (store_of frame_loaded) !! 0%nat = Some frame_loaded)
    by (by vm_compute).
  assert (H1 : add_features 0%nat (store_of frame_loaded)
               = (inr 1%nat, snd (add_features 0%nat (store_of frame_loaded))))
    by (by vm_compute).
  destruct (add_features_logs _ _ _ _ _ H0 H1) as (a & Ha & Hlog).
  exists a. split; [exact Ha|]. rewrite Hlog.
  vm_compute in Ha. injection Ha as <-. reflexivity.
Defined.









Lemma frame_get_None (c : string) (t : DataFrame) :
  frame_get c t = None ↔ c ∉ map fst t.
Proof.
  induction t as [|[n s] t IH]; simpl.
  - split; [intros _; apply not_elem_of_nil | done].
  - rewrite not_elem_of_cons, <- IH. case_decide.
    + split; [done | intros [Hne _]; congruence].
    + split; [intros Hc; split; [congruence | done] | by intros [_ Hc]].
Qed.

Lemma filter_all {A} (P : A → Prop) `{∀ x, Decision (P x)} (l : list A) :
  Forall P l → filter P l = l.
Proof.
  induction 1 as [|x l Hx Hl IH]; [done|].
  by rewrite filter_cons_True, IH.
Qed.

(** X12: on a frame that has no column with a derived name, [add_features]
    does what the specification says of every frame: each original column
    is in the result unchanged, and the columns of the result are the
    original columns followed by is_dog, has_name, sex, neutered, hair_type
    and days_upon_outcome, in that order. *)
Theorem add_features_appends (st : state) (df : loc) (t : DataFrame) r st' :
  frames st !! df = Some t →
  Forall (λ c, frame_get c t = None) derived_names →
  add_features df st = (inr r, st') →
  ∃ t', frames st' !! r = Some t' ∧ keeps_all_columns t t'.
Proof.
  intros Hdf Hnone Hrun.
  destruct (add_features_inv st df t r st' Hdf Hrun) as (cols & Hc & _ & ->).
  pose proof (features_names t cols Hc) as Hn.
  pose proof derived_names_NoDup as Hnd. rewrite <- Hn in Hnd.
  exists (frame_set_all cols t). simpl. split; [by rewrite lookup_insert_eq|].
  split.
  - intros c s Hs. rewrite frame_get_set_all; [done|]. rewrite Hn.
    intros Hin. rewrite Forall_forall in Hnone. apply Hnone in Hin. congruence.
  - rewrite frame_set_all_names, Hn by done. f_equal.
    apply filter_all. eapply Forall_impl; [exact Hnone|].
    intros c Hcn. by apply frame_get_None.
Qed.

Lemma add_features_appends_witness :
  ∃ t', frames (snd (add_features 0%nat (store_of frame_loaded))) !! 1%nat
        = Some t' ∧
        keeps_all_columns frame_loaded t'.
Proof.
  assert (H0 : frames (store_of frame_loaded) !! 0%nat = Some frame_loaded)
    by (by vm_compute).
  assert (H1 : add_features 0%nat (store_of frame_loaded)
               = (inr 1%nat, snd (add_features 0%nat (store_of frame_loaded))))
    by (by vm_compute).
  assert (H2 : Forall (λ c, frame_get c frame_loaded = None) derived_names).
  { unfold derived_names. repeat (constructor; [reflexivity|]). constructor. }
  exact (add_features_appends _ _ _ _ _ H0 H2 H1).
Defined.

Lemma features_agree (t1 t2 : DataFrame) :
  Forall (λ c, frame_get c t1 = frame_get c t2) consumed_names →
  features t1 = features t2.
Proof.
  unfold consumed_names. rewrite !Forall_cons.
  intros (H1 & H2 & H3 & H4 & H5 & _).
  unfold features, str_column. by rewrite H1, H2, H3, H4, H5.
Qed.

(** X13: the derived columns depend on the five consumed columns and on
    nothing else: on two frames with distinct labels that agree on those
    five columns,
    [add_features] returns for both or raises for both, and when it returns
    the six derived columns of the two results are equal.  The other columns
    of a frame, their number and their order do not count. *)
Theorem add_features_consumed_only (st1 st2 : state) (df1 df2 : loc)
    (t1 t2 : DataFrame) :
  frames st1 !! df1 = Some t1 →
  frames st2 !! df2 = Some t2 →
  distinct_labels t1 →
  distinct_labels t2 →
  Forall (λ c, frame_get c t1 = frame_get c t2) consumed_names →
  (∃ e1 e2 s1 s2, add_features df1 st1 = (inl e1, s1) ∧
                  add_features df2 st2 = (inl e2, s2)) ∨
  (∃ r1 r2 s1 s2 t1' t2',
     add_features df1 st1 = (inr r1, s1) ∧
     add_features df2 st2 = (inr r2, s2) ∧
     frames s1 !! r1 = Some t1' ∧ frames s2 !! r2 = Some t2' ∧
     Forall (λ c, is_Some (frame_get c t1') ∧ frame_get c t1' = frame_get c t2')
            derived_names).
Proof.
  intros H1 H2 _ _ Hagree. apply features_agree in Hagree.
  pose proof (add_features_run st1 df1 t1 H1) as R1.
  pose proof (add_features_run st2 df2 t2 H2) as R2. simpl in R1, R2.
  rewrite <- Hagree in R2. destruct (features t1) as [cols|] eqn:Hc.
  - right. eexists _, _, _, _, _, _. split; [exact R1|]. split; [exact R2|].
    simpl. rewrite !lookup_insert_eq. split; [done|]. split; [done|].
    pose proof (features_names t1 cols Hc) as Hn.
    pose proof derived_names_NoDup as Hnd. rewrite <- Hn in Hnd |- *.
    apply Forall_forall. intros c Hin.
    apply list_elem_of_fmap in Hin as ([c' s] & -> & Hin). simpl.
    rewrite !(frame_get_set_all_in c' s) by done. split; [by eexists | done].
  - left. destruct R1 as (e1 & s1 & _ & R1 & _).
    destruct R2 as (e2 & s2 & _ & R2 & _). by exists e1, e2, s1, s2.
Qed.

Lemma add_features_consumed_only_witness :
  ∃ r1 r2 s1 s2,
    add_features 0%nat (store_of frame_loaded) = (inr r1, s1) ∧
    add_features 0%nat (store_of frame_loaded_color) = (inr r2, s2) ∧
    frames s1 !! r1 ≫= frame_get "days_upon_outcome"
    = frames s2 !! r2 ≫= frame_get "days_upon_outcome".
Proof.
  assert (H1 : frames (store_of frame_loaded) !! 0%nat = Some frame_loaded)
    by (by vm_compute).
  assert (H2 : frames (store_of frame_loaded_color) !! 0%nat
               = Some frame_loaded_color) by (by vm_compute).
  assert (H3 : Forall (λ c, frame_get c frame_loaded = frame_get c frame_loaded_color)
                      consumed_names).
  { unfold consumed_names. repeat (constructor; [reflexivity|]). constructor. }
  assert (N1 : distinct_labels frame_loaded)
    by (apply (bool_decide_unpack _); by vm_compute).
  assert (N2 : distinct_labels frame_loaded_color)
    by (apply (bool_decide_unpack _); by vm_compute).
  destruct (add_features_consumed_only _ _ _ _ _ _ H1 H2 N1 N2 H3)
    as [(e1 & e2 & s1 & s2 & R1 & _)
       |(r1 & r2 & s1 & s2 & t1' & t2' & R1 & R2 & F1 & F2 & Hd)].
  - exfalso. by vm_compute in R1.
  - exists r1, r2, s1, s2. split; [exact R1|]. split; [exact R2|].
    rewrite F1, F2. simpl.
    unfold derived_names in Hd. rewrite !Forall_cons in Hd.
    by destruct Hd as (_ & _ & _ & _ & _ & [_ Hd] & _).
Defined.
